(** * Bulk contact import: [createContactsFromCSV]

    A shallow embedding of
    [apps/web/modules/ee/contacts/lib/contacts.ts], function
    [createContactsFromCSV], together with the part of the Prisma store
    it reads and writes.

    Modelling conventions.
    - The three Prisma models touched by the function are tables of the
      [Store]: [contact], [contactAttribute] (kept grouped under its
      [contactId] foreign key, so that the compound unique key
      [contactId_attributeKeyId] is the key of the inner map) and
      [contactAttributeKey] (keyed by its [id]).
    - Database generated ids are positives; a new row receives an id that
      is not used in its table.
    - A [findMany] without [orderBy] returns its rows in the enumeration
      order of the table ([map_to_list]).
    - [createdAt]/[updatedAt], the timing log and the unused local
      [existingAttributes] of the [update] branch are left out: nothing
      below observes them.
    - A [Record<string, string>] is a [gmap string string]; [Object.entries]
      enumerates it with [map_to_list].  The enumeration order is not
      observable through the store, whose rows are keyed.
    - The per-record promise chains started by [csvData.map(async ...)] are
      run one after the other, in the order of [csvData]; every chain is
      shown to succeed once the preparation has succeeded
      ([records_total]), so no chain is ever cut short by another one's
      failure. *)

From Stdlib Require Import DecimalString.
From stdpp Require Import gmap strings list fin_maps.

Local Open Scope string_scope.
Local Open Scope list_scope.

(** ** Data model *)

Abbreviation CsvRecord := (gmap string string).

Inductive DuplicateAction := skip | update | overwrite.

(** A row of [contactAttributeKey]. *)
Record ContactAttributeKey := mkKey {
  key : string;
  name : string;
  keyEnvironmentId : string;
}.

(** A row of [contact] with its [contactAttribute] rows:
    [attributeKeyId ↦ value]. *)
Record Contact := mkContact {
  environmentId : string;
  attributes : gmap positive string;
}.

Record Store := mkStore {
  contact : gmap positive Contact;
  contactAttributeKey : gmap positive ContactAttributeKey;
}.

(** Result of [select: { attributeKey: { select: { key, id } }, value }]. *)
Record SelectedAttribute := mkSel {
  attributeKey_key : string;
  attributeKey_id : positive;
  attribute_value : string;
}.

(** An element of [existingContactsByEmail]. *)
Record ExistingContact := mkExisting {
  existing_id : positive;
  existing_attributes : list SelectedAttribute;
}.

(** What [prisma.contact.create/update] return under
    [include: { attributes: { select: { attributeKey: { key }, value } } }]. *)
Record TContact := mkTContact {
  tc_id : positive;
  tc_environmentId : string;
  tc_attributes : list (string * string);
}.

Inductive Error :=
| ValidationError (message : string)
| DatabaseError (message : string)
| PrismaClientKnownRequestError (message : string)
| PrismaClientValidationError (message : string).

(** The zod schemas handed to [validateInputs].  Their declarations
    ([../types/contact], [@formbricks/types/common]) are not part of the
    sources at hand, so they are parameters of the model.
    [ZContactCSVDuplicateAction] is the enumeration [DuplicateAction]
    itself and needs no check. *)
Record Schemas := mkSchemas {
  ZContactCSVUploadResponse : list CsvRecord → bool;
  ZId : string → bool;
  ZContactCSVAttributeMap : gmap string string → bool;
}.

(** Modelled from the spec: the zod schemas of [../types/contact] are
    missing from the sources.  The spec describes the records as flat
    string maps, possibly without [email], and the attribute map as a map
    from column names to key names; these shapes are already guaranteed by
    the types [list CsvRecord] and [gmap string string], so the schema
    accepts every typed input. *)
Definition shapeSchemas : Schemas :=
  {| ZContactCSVUploadResponse := λ _, true;
     ZId := λ _, true;
     ZContactCSVAttributeMap := λ _, true |}.

(** ** The store monad: state passing with exceptions *)

Definition M (A : Type) : Type := Store → Store * (Error + A).

Definition ret {A} (a : A) : M A := λ st, (st, inr a).
Definition throw {A} (e : Error) : M A := λ st, (st, inl e).
Definition bind {A B} (m : M A) (k : A → M B) : M B :=
  λ st, match m st with
        | (st', inl e) => (st', inl e)
        | (st', inr a) => k a st'
        end.
Definition read {A} (f : Store → A) : M A := λ st, (st, inr (f st)).

Notation "x <- m ;; k" := (bind m (λ x, k))
  (at level 100, m at next level, right associativity).
Notation "m ;;; k" := (bind m (λ _, k))
  (at level 100, right associativity).

Fixpoint mapM {A B} (f : A → M B) (l : list A) : M (list B) :=
  match l with
  | [] => ret []
  | x :: l' => y <- f x;; ys <- mapM f l';; ret (y :: ys)
  end.

(** [catch (error) { if (error instanceof Prisma.PrismaClientKnownRequestError)
    throw new DatabaseError(error.message); throw error; }] *)
Definition catchPrisma {A} (m : M A) : M A :=
  λ st, match m st with
        | (st', inl (PrismaClientKnownRequestError msg)) => (st', inl (DatabaseError msg))
        | r => r
        end.

(** Modelled from the spec: [validateInputs] lives in
    [@formbricks/lib/utils/validate], which is missing from the sources;
    the spec says a malformed input is a [ValidationError] raised before
    any mutation. *)
Definition validateInputs (checks : list bool) : M unit :=
  if forallb id checks then ret tt else throw (ValidationError "Validation failed").

(** ** JavaScript helpers *)

(** [Boolean(v)] for [v : string | undefined], keeping the string when
    it is truthy. *)
Definition truthy (v : option string) : option string :=
  match v with
  | Some s => if decide (s = "") then None else Some s
  | None => None
  end.

(** [Array.from(new Set(xs))]: first occurrences, in order. *)
Definition arrayFromSet (xs : list string) : list string :=
  foldl (λ acc x, if bool_decide (x ∈ acc) then acc else acc ++ [x]) [] xs.

(** [Object.keys(record)] and [Object.entries(record)]. *)
Definition objectKeys (record : CsvRecord) : list string :=
  (map_to_list record).*1.
Definition objectEntries (record : CsvRecord) : list (string * string) :=
  map_to_list record.

(** [new Map()] filled by [forEach(... map.set(k, v))]. *)
Definition mapSetAll {V} (m : gmap string V) (kvs : list (string * V)) : gmap string V :=
  foldl (λ acc kv, <[kv.1 := kv.2]> acc) m kvs.

(** ** Prisma reads *)

(** Join of a contact's attribute rows with their key rows. *)
Definition joinAttributes (keys : gmap positive ContactAttributeKey)
    (attrs : gmap positive string) : list SelectedAttribute :=
  omap (λ '(kid, v), (λ row, mkSel (key row) kid v) <$> keys !! kid)
       (map_to_list attrs).

(** [include: { attributes: { select: { attributeKey: { key }, value } } }] *)
Definition includeAttributes (keys : gmap positive ContactAttributeKey)
    (attrs : gmap positive string) : list (string * string) :=
  (λ a, (attributeKey_key a, attribute_value a)) <$> joinAttributes keys attrs.

Definition toTContact (st : Store) (id : positive) (c : Contact) : TContact :=
  mkTContact id (environmentId c)
             (includeAttributes (contactAttributeKey st) (attributes c)).

(** [prisma.contact.findMany({ where: { environmentId, attributes: { some:
    { attributeKey: { key: "email" }, value: { in: csvEmails } } } }, ... })] *)
Definition findManyContactsByEmail (env : string) (csvEmails : list string)
    (st : Store) : list ExistingContact :=
  omap (λ '(cid, c),
          let attrs := joinAttributes (contactAttributeKey st) (attributes c) in
          if bool_decide (environmentId c = env)
             && existsb (λ a, bool_decide (attributeKey_key a = "email")
                              && bool_decide (attribute_value a ∈ csvEmails)) attrs
          then Some (mkExisting cid attrs) else None)
       (map_to_list (contact st)).

(** [existingContactsByEmail.forEach(...)]: the first attribute whose key
    is ["email"] names the entry; a later contact with the same value
    replaces an earlier one. *)
Definition emailToContactMapOf (existing : list ExistingContact)
    : gmap string ExistingContact :=
  foldl (λ acc c,
           match List.find (λ a, bool_decide (attributeKey_key a = "email"))
                           (existing_attributes c) with
           | Some emailAttr => <[attribute_value emailAttr := c]> acc
           | None => acc
           end) ∅ existing.

(** [prisma.contactAttribute.findMany({ where: { attributeKey: { key: "userId",
    environmentId }, value: { in: csvUserIds } }, select: { value: true } })] *)
Definition findManyUserIds (env : string) (csvUserIds : list string)
    (st : Store) : list string :=
  '(_, c) ← map_to_list (contact st);
  '(kid, v) ← map_to_list (attributes c);
  match contactAttributeKey st !! kid with
  | Some row =>
      if bool_decide (key row = "userId")
         && bool_decide (keyEnvironmentId row = env)
         && bool_decide (v ∈ csvUserIds)
      then [v] else []
  | None => []
  end.

(** [prisma.contactAttributeKey.findMany({ where: { environmentId },
    select: { key, id } })] and its variant with [key: { in: missingKeys }]. *)
Definition findManyAttributeKeys (env : string) (only : option (list string))
    (st : Store) : list (string * positive) :=
  omap (λ '(kid, row),
          if bool_decide (keyEnvironmentId row = env)
             && match only with
                | Some ks => bool_decide (key row ∈ ks)
                | None => true
                end
          then Some (key row, kid) else None)
       (map_to_list (contactAttributeKey st)).

(** ** Prisma writes *)

Definition keyExists (keys : gmap positive ContactAttributeKey)
    (k env : string) : bool :=
  existsb (λ '(_, row), bool_decide (key row = k)
                        && bool_decide (keyEnvironmentId row = env))
          (map_to_list keys).

(** Modelled from the spec: the Prisma schema is missing from the sources;
    the spec gives [contactAttributeKey] the unique constraint
    [(environmentId, key)].  One row of
    [createMany({ data, skipDuplicates: true })]: a row whose
    [(key, environmentId)] is already taken is skipped. *)
Definition createKey (keys : gmap positive ContactAttributeKey)
    (row : ContactAttributeKey) : gmap positive ContactAttributeKey :=
  if keyExists keys (key row) (keyEnvironmentId row) then keys
  else <[fresh (dom keys) := row]> keys.

Definition createManyAttributeKeys (data : list ContactAttributeKey) : M unit :=
  λ st, (mkStore (contact st) (foldl createKey (contactAttributeKey st) data),
         inr tt).

(** The [attributeKeyId]/[value] pairs built from [Object.entries(record)];
    [attributeKeyMap.get(key)] may be [undefined]. *)
Definition resolveEntries (attributeKeyMap : gmap string positive)
    (record : CsvRecord) : list (option positive * string) :=
  (λ '(k, v), (attributeKeyMap !! k, v)) <$> objectEntries record.

(** Nested [attributes: { create: [...] }]: a row with a taken
    [(contactId, attributeKeyId)] violates the unique constraint. *)
Fixpoint nestedCreate (items : list (option positive * string))
    (attrs : gmap positive string) : Error + gmap positive string :=
  match items with
  | [] => inr attrs
  | (None, _) :: _ => inl (PrismaClientValidationError "Argument attributeKeyId is missing")
  | (Some kid, v) :: items' =>
      match attrs !! kid with
      | Some _ => inl (PrismaClientKnownRequestError "Unique constraint failed")
      | None => nestedCreate items' (<[kid := v]> attrs)
      end
  end.

(** Nested [attributes: { upsert: [...] }] on [contactId_attributeKeyId]:
    update the value when the row exists, create it otherwise. *)
Fixpoint nestedUpsert (items : list (option positive * string))
    (attrs : gmap positive string) : Error + gmap positive string :=
  match items with
  | [] => inr attrs
  | (None, _) :: _ => inl (PrismaClientValidationError "Argument attributeKeyId is missing")
  | (Some kid, v) :: items' => nestedUpsert items' (<[kid := v]> attrs)
  end.

(** [prisma.contact.update({ where: { id }, data: { attributes: ... },
    include })]; the nested writes are applied atomically. *)
Definition contactUpdate (id : positive)
    (write : gmap positive string → Error + gmap positive string) : M TContact :=
  λ st, match contact st !! id with
        | None => (st, inl (PrismaClientKnownRequestError "Record to update not found"))
        | Some c =>
            match write (attributes c) with
            | inl e => (st, inl e)
            | inr attrs' =>
                let c' := mkContact (environmentId c) attrs' in
                let st' := mkStore (<[id := c']> (contact st)) (contactAttributeKey st) in
                (st', inr (toTContact st' id c'))
            end
        end.

(** [prisma.contact.create({ data: { environmentId, attributes: { create } },
    include })] *)
Definition contactCreate (env : string)
    (write : gmap positive string → Error + gmap positive string) : M TContact :=
  λ st, match write ∅ with
        | inl e => (st, inl e)
        | inr attrs' =>
            let id := fresh (dom (contact st)) in
            let c' := mkContact env attrs' in
            let st' := mkStore (<[id := c']> (contact st)) (contactAttributeKey st) in
            (st', inr (toTContact st' id c'))
        end.

(** [prisma.contactAttribute.deleteMany({ where: { contactId } })] *)
Definition deleteManyContactAttributes (contactId : positive) : M unit :=
  λ st, (mkStore (alter (λ c, mkContact (environmentId c) ∅) contactId (contact st))
                 (contactAttributeKey st),
         inr tt).

(** ** [createContactsFromCSV] *)

Definition csvEmailsOf (csvData : list CsvRecord) : list string :=
  arrayFromSet (omap (λ r : CsvRecord, truthy (r !! "email")) csvData).
Definition csvUserIdsOf (csvData : list CsvRecord) : list string :=
  arrayFromSet (omap (λ r : CsvRecord, truthy (r !! "userId")) csvData).
Definition csvKeysOf (csvData : list CsvRecord) : list string :=
  arrayFromSet (csvData ≫= objectKeys).

(** Lines 225-257: the lookup table from e-mail to existing contact. *)
Definition emailToContactMap (env : string) (csvData : list CsvRecord)
    (st : Store) : gmap string ExistingContact :=
  emailToContactMapOf (findManyContactsByEmail env (csvEmailsOf csvData) st).

Definition userIdMessage (v : string) : string :=
  "Contact with userId " +:+ v +:+ " already exist for this environment".

(** Lines 259-279: "Check for duplicate userIds". *)
Definition checkDuplicateUserIds (env : string) (csvUserIds : list string) : M unit :=
  if bool_decide (0 < length csvUserIds) then
    existingUserIds <- read (findManyUserIds env csvUserIds);;
    match existingUserIds with
    | v :: _ => throw (ValidationError (userIdMessage v))
    | [] => ret tt
    end
  else ret tt.

(** Lines 281-323: fetch the attribute keys, create the missing ones and
    return the completed [attributeKeyMap]. *)
Definition reconcileAttributeKeys (env : string) (csvData : list CsvRecord)
    : M (gmap string positive) :=
  existingAttributeKeys <- read (findManyAttributeKeys env None);;
  let attributeKeyMap := mapSetAll ∅ existingAttributeKeys in
  let csvKeys := csvKeysOf csvData in
  let missingKeys := filter (λ k, attributeKeyMap !! k = None) csvKeys in
  if bool_decide (0 < length missingKeys) then
    createManyAttributeKeys ((λ k, mkKey k k env) <$> missingKeys);;;
    newAttributeKeys <- read (findManyAttributeKeys env (Some missingKeys));;
    ret (mapSetAll attributeKeyMap newAttributeKeys)
  else ret attributeKeyMap.

(** Lines 328-438: the body of [csvData.map(async (record) => ...)]. *)
Definition processRecord (env : string) (duplicateContactsAction : DuplicateAction)
    (emailToContact : gmap string ExistingContact)
    (attributeKeyMap : gmap string positive) (record : CsvRecord)
    : M (option TContact) :=
  match truthy (record !! "email") with
  | None => ret None
  | Some email =>
      match emailToContact !! email with
      | Some existingContact =>
          match duplicateContactsAction with
          | skip => ret None
          | update =>
              updatedContact <-
                contactUpdate (existing_id existingContact)
                  (nestedUpsert (resolveEntries attributeKeyMap record));;
              ret (Some updatedContact)
          | overwrite =>
              deleteManyContactAttributes (existing_id existingContact);;;
              updatedContact <-
                contactUpdate (existing_id existingContact)
                  (nestedCreate (resolveEntries attributeKeyMap record));;
              ret (Some updatedContact)
          end
      | None =>
          newContact <-
            contactCreate env (nestedCreate (resolveEntries attributeKeyMap record));;
          ret (Some newContact)
      end
  end.

(** Lines 219-323: everything before the per-record processing. *)
Definition prepare (env : string) (csvData : list CsvRecord)
    : M (gmap string ExistingContact * gmap string positive) :=
  emailToContact <- read (emailToContactMap env csvData);;
  checkDuplicateUserIds env (csvUserIdsOf csvData);;;
  attributeKeyMap <- reconcileAttributeKeys env csvData;;
  ret (emailToContact, attributeKeyMap).

Definition createContactsFromCSV (schemas : Schemas) (csvData : list CsvRecord)
    (env : string) (duplicateContactsAction : DuplicateAction)
    (attributeMap : gmap string string) : M (list TContact) :=
  validateInputs [ZContactCSVUploadResponse schemas csvData; ZId schemas env;
                  ZContactCSVAttributeMap schemas attributeMap];;;
  catchPrisma (
    ctx <- prepare env csvData;;
    results <- mapM (processRecord env duplicateContactsAction ctx.1 ctx.2) csvData;;
    ret (omap id results)).

(** ** Observation points inside a run

    [importPrefix n] is [createContactsFromCSV] stopped after the chains of
    the first [n] records, with the [results] array built so far (one
    entry per record, [None] for [null]).  It is the device used below to
    speak about the store just before and just after one record. *)
Definition importPrefix (schemas : Schemas) (csvData : list CsvRecord)
    (env : string) (duplicateContactsAction : DuplicateAction)
    (attributeMap : gmap string string) (n : nat) : M (list (option TContact)) :=
  validateInputs [ZContactCSVUploadResponse schemas csvData; ZId schemas env;
                  ZContactCSVAttributeMap schemas attributeMap];;;
  catchPrisma (
    ctx <- prepare env csvData;;
    mapM (processRecord env duplicateContactsAction ctx.1 ctx.2) (take n csvData)).

(** ** Invariants used in the statements *)

(** The unique constraint [(key, environmentId)] of [contactAttributeKey]. *)
Definition keysUnique (keys : gmap positive ContactAttributeKey) : Prop :=
  ∀ i j ri rj, keys !! i = Some ri → keys !! j = Some rj →
    key ri = key rj → keyEnvironmentId ri = keyEnvironmentId rj → i = j.

(** [attributeKeyMap] only holds ids of key rows of the environment, under
    their own key. *)
Definition akmSound (env : string) (akm : gmap string positive)
    (keys : gmap positive ContactAttributeKey) : Prop :=
  ∀ k kid, akm !! k = Some kid →
    ∃ row, keys !! kid = Some row ∧ key row = k ∧ keyEnvironmentId row = env.

(** [attributeKeyMap] resolves every column of every record. *)
Definition akmCovers (akm : gmap string positive) (csvData : list CsvRecord) : Prop :=
  ∀ (r : CsvRecord) k, r ∈ csvData → is_Some (r !! k) → is_Some (akm !! k).

(** Contact [cid] of environment [env] carries the [userId] value [u]. *)
Definition carriesUserId (st : Store) (env : string) (cid : positive) (u : string) : Prop :=
  ∃ c kid row,
    contact st !! cid = Some c ∧ environmentId c = env ∧
    attributes c !! kid = Some u ∧
    contactAttributeKey st !! kid = Some row ∧
    key row = "userId" ∧ keyEnvironmentId row = env.

(** No two contacts of [env] carry the same [userId] value. *)
Definition userIdUnique (st : Store) (env : string) : Prop :=
  ∀ c1 c2 u, carriesUserId st env c1 u → carriesUserId st env c2 u → c1 = c2.

(** Some attribute row of key [userId] of [env] holds the value [u]. *)
Definition userIdExists (st : Store) (env : string) (u : string) : Prop :=
  ∃ cid c kid row,
    contact st !! cid = Some c ∧ attributes c !! kid = Some u ∧
    contactAttributeKey st !! kid = Some row ∧
    key row = "userId" ∧ keyEnvironmentId row = env.

(** The foreign key [contactAttribute.attributeKeyId]: every attribute row
    refers to a key row. *)
Definition attributeKeysExist (st : Store) : Prop :=
  ∀ cid c kid, contact st !! cid = Some c → is_Some (attributes c !! kid) →
    is_Some (contactAttributeKey st !! kid).

(** The [userId] cells of the records that have an e-mail value. *)
Definition incomingUserIds (csvData : list CsvRecord) : list string :=
  omap (λ r : CsvRecord,
          match truthy (r !! "email") with
          | Some _ => r !! "userId"
          | None => None
          end) csvData.

(** The branch of [processRecord] taken for [record] writes a contact:
    [create], [update] or [overwrite], as opposed to a dropped or skipped
    record. *)
Definition writesContact (duplicateContactsAction : DuplicateAction)
    (emailToContact : gmap string ExistingContact) (record : CsvRecord) : bool :=
  match truthy (record !! "email") with
  | None => false
  | Some email =>
      match emailToContact !! email, duplicateContactsAction with
      | Some _, skip => false
      | _, _ => true
      end
  end.

(** A key row [(k, env)] is present. *)
Definition hasKey (keys : gmap positive ContactAttributeKey) (k env : string) : Prop :=
  ∃ kid row, keys !! kid = Some row ∧ key row = k ∧ keyEnvironmentId row = env.

(** The attribute rows that the entries of [record] resolve to. *)
Definition rowsOf (akm : gmap string positive) (record : CsvRecord)
    (attrs : gmap positive string) : Prop :=
  ∀ kid v, attrs !! kid = Some v ↔
           ∃ k, record !! k = Some v ∧ akm !! k = Some kid.

(** The entries of a record resolve to pairwise distinct key ids. *)
Record Resolves (env : string) (akm : gmap string positive)
    (keys : gmap positive ContactAttributeKey) (record : CsvRecord) : Prop := {
  res_sound : akmSound env akm keys;
  res_covers : ∀ k, is_Some (record !! k) → is_Some (akm !! k);
}.

(** What [reconcileAttributeKeys] guarantees. *)
Record Reconciled (env : string) (csvData : list CsvRecord) (st st' : Store)
    (akm : gmap string positive) : Prop := {
  rec_contact : contact st' = contact st;
  rec_subseteq : contactAttributeKey st ⊆ contactAttributeKey st';
  rec_sound : akmSound env akm (contactAttributeKey st');
  rec_covers : akmCovers akm csvData;
  rec_unique : keysUnique (contactAttributeKey st) → keysUnique (contactAttributeKey st');
  rec_new : ∀ kid row, contactAttributeKey st' !! kid = Some row →
      contactAttributeKey st !! kid = Some row ∨
      (contactAttributeKey st !! kid = None ∧
       ∃ k, k ∈ csvKeysOf csvData ∧ ¬ hasKey (contactAttributeKey st) k env ∧
            row = mkKey k k env);
  rec_noop : (∀ k, k ∈ csvKeysOf csvData → hasKey (contactAttributeKey st) k env) →
      st' = st;
}.

(** The facts that hold of the store while the records are processed. *)
Record Running (env : string) (csvData : list CsvRecord)
    (e2c : gmap string ExistingContact) (akm : gmap string positive)
    (s : Store) : Prop := {
  run_sound : akmSound env akm (contactAttributeKey s);
  run_covers : akmCovers akm csvData;
  run_existing : ∀ e c, e2c !! e = Some c → is_Some (contact s !! existing_id c);
}.

(** The conjunction of the checks of [validateInputs]. *)
Definition validInputs (schemas : Schemas) (csvData : list CsvRecord) (env : string)
    (attributeMap : gmap string string) : bool :=
  forallb id [ZContactCSVUploadResponse schemas csvData; ZId schemas env;
              ZContactCSVAttributeMap schemas attributeMap].

(** ** Worked examples *)

Definition mkRecord (kvs : list (string * string)) : CsvRecord := list_to_map kvs.
Definition emptyStore : Store := mkStore ∅ ∅.

(** The scenario of the spec: the second record has no e-mail. *)
Definition scenarioBatch : list CsvRecord :=
  [mkRecord [("email", "a@x.com"); ("plan", "free")];
   mkRecord [("userId", "u2"); ("plan", "pro")]].

(** A store with one contact [a@x.com] on plan [free]. *)
Definition storeWithContact : Store :=
  (createContactsFromCSV shapeSchemas
     [mkRecord [("email", "a@x.com"); ("plan", "free")]] "env" skip ∅ emptyStore).1.

Definition cityBatch : list CsvRecord :=
  [mkRecord [("email", "a@x.com"); ("city", "NYC")]].

Definition existingContact1 : ExistingContact :=
  mkExisting 1 [mkSel "plan" 2 "free"; mkSel "email" 1 "a@x.com"].

(** Two new contacts with distinct userIds. *)
Definition distinctUserIdBatch : list CsvRecord :=
  [mkRecord [("email", "a@x.com"); ("userId", "u1")];
   mkRecord [("email", "b@x.com"); ("userId", "u2")]].

(** Column [tier] only occurs in a record without e-mail. *)
Definition tierBatch : list CsvRecord :=
  [mkRecord [("email", "a@x.com"); ("plan", "free")];
   mkRecord [("userId", "u2"); ("tier", "gold")]].

(** A store in which contact [a@x.com] has the userId [u1]. *)
Definition storeWithUserId : Store :=
  (createContactsFromCSV shapeSchemas
     [mkRecord [("email", "a@x.com"); ("userId", "u1")]] "env" skip ∅ emptyStore).1.

(** A store in which contact [a@x.com] has the empty userId, as imported
    from a CSV row whose [userId] cell is empty. *)
Definition storeWithEmptyUserId : Store :=
  (createContactsFromCSV shapeSchemas
     [mkRecord [("email", "a@x.com"); ("userId", "")]] "env" skip ∅ emptyStore).1.

(** * The other functions of [contacts.ts]

    [getContact] and [deleteContact].  The memoisation of [getContact] by
    [reactCache] and [cache] is outside the model: [getContact] below is
    the function those wrappers call on a miss.  The rows of
    [contactAttribute] are kept under their contact, so they are removed
    with it. *)

(** Result of [selectContactAttribute]:
    [{ value, attributeKey: { key, name } }]. *)
Record SelectedContactAttribute := mkSelAttr {
  sel_value : string;
  sel_key : string;
  sel_name : string;
}.

(** Result of [selectContact], without the two time stamps. *)
Record SelectedContact := mkSelContact {
  sel_id : positive;
  sel_environmentId : string;
  sel_attributes : list SelectedContactAttribute;
}.

Definition selectAttributes (keys : gmap positive ContactAttributeKey)
    (attrs : gmap positive string) : list SelectedContactAttribute :=
  omap (λ '(kid, v), (λ row, mkSelAttr v (key row) (name row)) <$> keys !! kid)
       (map_to_list attrs).

Definition selectContact (st : Store) (id : positive) (c : Contact) : SelectedContact :=
  mkSelContact id (environmentId c)
               (selectAttributes (contactAttributeKey st) (attributes c)).

(** The argument of [contactCache.revalidate]. *)
Record Revalidation := mkRevalidation {
  rv_id : positive;
  rv_userId : option string;
  rv_environmentId : string;
}.

(** Lines 108-134, the function under the cache wrappers:
    [prisma.contact.findUnique({ where: { id }, select: selectContact })].
    [zid] is the schema [ZId] on the ids of the model. *)
Definition getContact (zid : positive → bool) (contactId : positive)
    : M (option SelectedContact) :=
  validateInputs [zid contactId];;;
  catchPrisma (read (λ st, selectContact st contactId <$> contact st !! contactId)).

(** [prisma.contact.delete({ where: { id }, select: selectContact })] *)
Definition contactDelete (id : positive) : M SelectedContact :=
  λ st, match contact st !! id with
        | None => (st, inl (PrismaClientKnownRequestError "Record to delete does not exist"))
        | Some c => (mkStore (delete id (contact st)) (contactAttributeKey st),
                     inr (selectContact st id c))
        end.

(** Lines 136-163.  The result is the deleted contact together with the
    revalidation that the function requests. *)
Definition deleteContact (zid : positive → bool) (contactId : positive)
    : M (SelectedContact * Revalidation) :=
  validateInputs [zid contactId];;;
  catchPrisma (
    deleted <- contactDelete contactId;;
    let userId :=
      sel_value <$> List.find (λ attr, bool_decide (sel_key attr = "userId"))
                              (sel_attributes deleted) in
    ret (deleted, mkRevalidation (sel_id deleted) userId (sel_environmentId deleted))).

(** * The action list of a logic item: [AdvancedLogicEditorActions.tsx] *)

Module LogicEditor.

(** The value of a field of an action: a string, or the [{ type, value }]
    object of a [calculate] action. *)
Inductive FieldValue :=
| FString (s : string)
| FValue (type value : string).

#[global] Instance FieldValue_eq_dec : EqDecision FieldValue.
Proof. solve_decision. Defined.

(** A [TAction] as the JavaScript object it is. *)
Abbreviation Action := (gmap string FieldValue).

(** A [TSurveyAdvancedLogic]; [C] is the type of its conditions.  A slot
    of [actions] is [None] when it is a hole of the array ([undefined]). *)
Record LogicItem (C : Type) := mkLogicItem {
  itemId : string;
  conditions : C;
  actions : list (option Action);
}.
Arguments mkLogicItem {C}.
Arguments itemId {C}.
Arguments conditions {C}.
Arguments actions {C}.

Inductive Operation := opDelete | opAddBelow | opDuplicate | opUpdate.

(** What one call of [handleActionsChange] does: it throws a [TypeError],
    returns without calling [updateQuestion], or calls
    [updateQuestion(questionIdx, { logic })]. *)
Inductive Outcome (C : Type) :=
| TypeError
| NoCall
| UpdateQuestion (questionIdx : nat) (logic : list (LogicItem C)).
Arguments TypeError {C}.
Arguments NoCall {C}.
Arguments UpdateQuestion {C}.

(** [array[i]]: [undefined] out of range and on a hole. *)
Definition arrayGet {A} (l : list (option A)) (i : nat) : option A :=
  l !! i ≫= id.

(** [array[i] = x]: beyond the end the array grows and the slots in
    between are holes. *)
Definition arraySet {A} (i : nat) (x : A) (l : list (option A)) : list (option A) :=
  if decide (i < length l) then <[i := Some x]> l
  else l ++ replicate (i - length l) None ++ [Some x].

(** [array.splice(i, 0, x)]: the position is clamped to the length. *)
Definition spliceInsert {A} (i : nat) (x : A) (l : list A) : list A :=
  take i l ++ x :: drop i l.

(** [{ ...action, id }] *)
Definition withId (action : option Action) (newId : string) : Action :=
  <["id" := FString newId]> (default ∅ action).

(** [{ id: createId(), objective: "jumpToQuestion", target: "" }] *)
Definition newJumpAction (newId : string) : Action :=
  {[ "id" := FString newId; "objective" := FString "jumpToQuestion";
     "target" := FString "" ]}.

(** Lines 47-70.  [logic] is [question.logic] ([None] when it is
    [undefined]); [newId] is what [createId()] returns when it is
    called. *)
Definition handleActionsChange {C} (logic : option (list (LogicItem C)))
    (logicIdx questionIdx : nat) (newId : string)
    (operation : Operation) (actionIdx : nat) (action : option Action)
    : Outcome C :=
  let logicCopy := default [] logic in
  match logicCopy !! logicIdx with
  | None => TypeError
  | Some logicItem =>
      let actionsClone := actions logicItem in
      let call actions' :=
        UpdateQuestion questionIdx
          (<[logicIdx := mkLogicItem (itemId logicItem) (conditions logicItem) actions']>
             logicCopy) in
      match operation with
      | opDelete => call (delete actionIdx actionsClone)
      | opAddBelow =>
          call (spliceInsert (S actionIdx) (Some (newJumpAction newId)) actionsClone)
      | opDuplicate =>
          call (spliceInsert (S actionIdx)
                  (Some (withId (arrayGet actionsClone actionIdx) newId)) actionsClone)
      | opUpdate =>
          match action with
          | None => NoCall
          | Some a => call (arraySet actionIdx a actionsClone)
          end
      end
  end.

(** Lines 78-82.  [shown] is [logicItem.actions], the list the component
    renders; [{ ...action, ...values }] lets [values] win. *)
Definition handleValuesChange {C} (logic : option (list (LogicItem C)))
    (shown : list (option Action)) (logicIdx questionIdx : nat) (newId : string)
    (actionIdx : nat) (values : Action) : Outcome C :=
  let action := arrayGet shown actionIdx in
  let actionBody := values ∪ default ∅ action in
  handleActionsChange logic logicIdx questionIdx newId opUpdate actionIdx (Some actionBody).


(** The [actions] of item [logicIdx] after a call. *)
Definition actionsAfter {C} (outcome : Outcome C) (logicIdx : nat)
    : option (list (option Action)) :=
  match outcome with
  | UpdateQuestion _ logic' => actions <$> logic' !! logicIdx
  | _ => None
  end.

(** The [id] fields of the actions of a list. *)
Definition actionIds (l : list (option Action)) : list (option FieldValue) :=
  (λ slot, slot ≫= (λ a : Action, a !! "id")) <$> l.

End LogicEditor.

(** ** The combobox (src/unnamed/part_000)

    [InputCombobox] is a React component with three pieces of state
    ([open], [localValue], [inputType]), one effect that derives the
    state from the [value] prop, and three event handlers.  A handler
    reads the props and the state of the render it was created in, queues
    state updates and calls the [onChangeValue] prop; it is modelled as a
    function from that state to the state React holds once the queued
    updates are applied, paired with the calls made, in order.  The icon
    of an option is a component and plays no part in the handlers; it is
    left out.  TypeScript's types are erased at run time: the array that
    [handleSelect] passes to [onChangeValue] holds the options' values,
    strings or numbers, whatever the [as string[]] cast says, so an array
    [value] is modelled with both. *)
Module InputCombobox.

(** JavaScript numbers stay abstract: a type, the comparison [===], the
    comparison of [Array.prototype.includes] (SameValueZero) and the
    conversion [Number(text)]. *)
Class JsNumbers := mkJsNumbers {
  number : Type;
  strictEqNumber : number → number → bool;
  sameValueZeroNumber : number → number → bool;
  Number : string → number }.

Section Component.
Context `{JsNumbers}.

(** [string | number] *)
Inductive Scalar := SString (s : string) | SNumber (n : number).

(** [a === b] *)
Definition strictEq (a b : Scalar) : bool :=
  match a, b with
  | SString s, SString t => bool_decide (s = t)
  | SNumber n, SNumber m => strictEqNumber n m
  | _, _ => false
  end.

(** [array.includes(v)] *)
Definition includes (array : list Scalar) (v : Scalar) : bool :=
  existsb (λ a, match a, v with
                | SString s, SString t => bool_decide (s = t)
                | SNumber n, SNumber m => sameValueZeroNumber n m
                | _, _ => false
                end) array.

Record TComboboxOption := mkOption {
  label : string;
  value : Scalar;
  meta : option (gmap string string) }.

Record TComboboxGroupedOption := mkGroup {
  groupLabel : string;
  groupValue : Scalar;
  groupOptions : list TComboboxOption }.

(** The [value] prop: [string | number | string[] | null] or absent. *)
Inductive PropValue :=
  | Nullish
  | PScalar (v : Scalar)
  | PArray (vs : list Scalar).

Record Props := mkProps {
  options : option (list TComboboxOption);
  groupedOptions : option (list TComboboxGroupedOption);
  propValue : PropValue;
  clearable : bool;
  withInput : bool;
  allowMultiSelect : bool }.

(** [TComboboxOption | TComboboxOption[] | string | number | null] *)
Inductive LocalValue :=
  | LNull
  | LScalar (v : Scalar)
  | LOption (o : TComboboxOption)
  | LOptions (os : list TComboboxOption).

Inductive InputType := dropdown | input.

#[global] Instance InputType_eq_dec : EqDecision InputType.
Proof. solve_decision. Defined.

Record State := mkState {
  isOpen : bool;
  localValue : LocalValue;
  inputType : option InputType }.

(** The first argument of [onChangeValue]. *)
Inductive Emitted := EScalar (v : Scalar) | EArray (vs : list Scalar).

(** One call [onChangeValue(value, option, fromInput)]; [None] is an
    argument that was not passed. *)
Record Call := onChangeValue {
  callValue : Emitted;
  callOption : option TComboboxOption;
  callFromInput : option bool }.

Definition setOpen (b : bool) (st : State) : State :=
  mkState b (localValue st) (inputType st).
Definition setLocalValue (v : LocalValue) (st : State) : State :=
  mkState (isOpen st) v (inputType st).
Definition setInputType (t : option InputType) (st : State) : State :=
  mkState (isOpen st) (localValue st) t.

(** [if (inputType !== t) setInputType(t)], where [inputType] is the state
    of the render, [rendered], and the update is queued on [st]. *)
Definition ensureInputType (t : InputType) (rendered st : State) : State :=
  if decide (inputType rendered = Some t) then st else setInputType (Some t) st.

(** [options?.length ? options : groupedOptions?.flatMap(group => group.options)] *)
Definition validOptions (props : Props) : option (list TComboboxOption) :=
  match options props with
  | Some (o :: os) => Some (o :: os)
  | _ => (λ groups, groups ≫= groupOptions) <$> groupedOptions props
  end.

(** The effect.  Its dependencies are [value], [options],
    [groupedOptions], [inputType] and [withInput]. *)
Definition syncEffect (props : Props) (st : State) : State :=
  match propValue props with
  | Nullish => setInputType None (setLocalValue LNull st)
  | PArray [] => st
  | PArray vs =>
      ensureInputType dropdown st
        (setLocalValue
           (match validOptions props with
            | Some os => LOptions (List.filter (λ o, includes vs (value o)) os)
            | None => LNull
            end) st)
  | PScalar v =>
      match validOptions props ≫= List.find (λ o, strictEq (value o) v) with
      | Some o => ensureInputType dropdown st (setLocalValue (LOption o) st)
      | None =>
          if withInput props
          then ensureInputType input st (setLocalValue (LScalar v) st)
          else setInputType None (setLocalValue LNull st)
      end
  end.

Definition handleSelect (props : Props) (st : State) (option : TComboboxOption)
    : State * list Call :=
  let st1 := ensureInputType dropdown st st in
  if allowMultiSelect props then
    match localValue st with
    | LOptions items =>
        let doesExist :=
          List.find (λ item, strictEq (value item) (value option)) items in
        let newValue :=
          if doesExist
          then List.filter (λ item, negb (strictEq (value item) (value option))) items
          else items ++ [option] in
        let '(st2, calls) :=
          match newValue with
          | [] => (setInputType None st1, [onChangeValue (EArray []) None None])
          | _ => (st1, [])
          end in
        (setLocalValue (LOptions newValue) st2,
         calls ++ [onChangeValue (EArray (value <$> newValue)) (Some option) None])
    | _ =>
        (setLocalValue (LOptions [option]) st1,
         [onChangeValue (EArray [value option]) (Some option) None])
    end
  else
    (setOpen false (setLocalValue (LOption option) st1),
     [onChangeValue (EScalar (value option)) (Some option) None]).



Definition handleClear (st : State) : State * list Call :=
  (setLocalValue LNull (setInputType None st),
   [onChangeValue (EScalar (SString "")) None None]).


Definition clearShown (props : Props) (st : State) : bool :=
  clearable props && bool_decide (inputType st = Some dropdown).

Definition checked (props : Props) (st : State) (option : TComboboxOption) : bool :=
  match localValue st with
  | LOptions items =>
      allowMultiSelect props &&
      bool_decide (is_Some (List.find (λ item, strictEq (value item) (value option)) items))
  | LOption o => negb (allowMultiSelect props) && strictEq (value o) (value option)
  | LNull | LScalar _ => false
  end.

(** Vocabulary of the statements: the options a multi-select holds, the
    props after the parent has stored a value it was handed, and the
    argument that stands for a local value. *)
Definition selected (st : State) : list TComboboxOption :=
  match localValue st with LOptions items => items | _ => [] end.

Definition withValue (v : PropValue) (props : Props) : Props :=
  mkProps (options props) (groupedOptions props) v
          (clearable props) (withInput props) (allowMultiSelect props).


End Component.

(** Numbers for the examples: the integers and NaN ([None]), with
    [Number] reading an optional sign and decimal digits and giving NaN
    for every other text. *)
Definition exampleNumbers : JsNumbers :=
  mkJsNumbers (option Z)
    (λ n m, match n, m with Some a, Some b => bool_decide (a = b) | _, _ => false end)
    (λ n m, bool_decide (n = m))
    (λ text, Z.of_int <$> NilZero.int_of_string text).

Definition fruit (v : string) : @TComboboxOption exampleNumbers :=
  mkOption v (SString v) None.

Definition fruitProps (multi : bool) : @Props exampleNumbers :=
  mkProps (Some [fruit "apple"; fruit "pear"; fruit "plum"]) None Nullish false true multi.

Definition initialState : @State exampleNumbers := mkState false LNull None.

End InputCombobox.

(** ** The monad *)

Lemma bind_inr {A B} (m : M A) (k : A → M B) st st' b :
  bind m k st = (st', inr b) ↔
  ∃ s a, m st = (s, inr a) ∧ k a s = (st', inr b).
Proof.
  unfold bind. split.
  - destruct (m st) as [s [e|a]] eqn:E; [discriminate|]. eauto.
  - intros (s & a & -> & Hk). done.
Qed.

Lemma bind_ok {A B} (m : M A) (k : A → M B) st s a :
  m st = (s, inr a) → bind m k st = k a s.
Proof. unfold bind. by intros ->. Qed.

Lemma bind_err {A B} (m : M A) (k : A → M B) st s e :
  m st = (s, inl e) → bind m k st = (s, inl e).
Proof. unfold bind. by intros ->. Qed.

Lemma catchPrisma_inr {A} (m : M A) st st' a :
  catchPrisma m st = (st', inr a) ↔ m st = (st', inr a).
Proof.
  unfold catchPrisma. destruct (m st) as [s [[]|a']]; split; congruence.
Qed.

(** Peels the successful binds of a hypothesis [m st = (st', inr x)]. *)
Ltac inv_bind H :=
  repeat match type of H with
         | bind _ _ _ = (_, inr _) =>
             let s := fresh "s" in
             let a := fresh "a" in
             let H1 := fresh "Hrun" in
             apply bind_inr in H as (s & a & H1 & H)
         | ret _ _ = (_, inr _) => unfold ret in H; simplify_eq
         | read _ _ = (_, inr _) => unfold read in H; simplify_eq
         end.

Section mapM.
Context {A B : Type} (f : A → M B).

Lemma mapM_app l1 l2 st s1 ys1 :
  mapM f l1 st = (s1, inr ys1) →
  mapM f (l1 ++ l2) st =
    match mapM f l2 s1 with
    | (s2, inr ys2) => (s2, inr (ys1 ++ ys2))
    | (s2, inl e) => (s2, inl e)
    end.
Proof.
  revert st ys1. induction l1 as [|x l1 IH]; intros st ys1 H; simpl in *.
  - unfold ret in H. simplify_eq. by destruct (mapM f l2 s1) as [? []].
  - inv_bind H.
    rewrite (bind_ok _ _ _ _ _ Hrun). unfold bind at 1.
    rewrite (IH _ _ Hrun0). by destruct (mapM f l2 s1) as [? []].
Qed.

Lemma mapM_app_inv l1 l2 st st' ys :
  mapM f (l1 ++ l2) st = (st', inr ys) →
  ∃ s1 ys1 ys2, mapM f l1 st = (s1, inr ys1) ∧
                mapM f l2 s1 = (st', inr ys2) ∧ ys = ys1 ++ ys2.
Proof.
  revert st ys. induction l1 as [|x l1 IH]; intros st ys H; simpl in *.
  - exists st, [], ys. done.
  - inv_bind H.
    destruct (IH _ _ Hrun0) as (s1 & ys1 & ys2 & H1 & H2 & ->).
    exists s1, (a :: ys1), ys2. split; [|done].
    rewrite (bind_ok _ _ _ _ _ Hrun), (bind_ok _ _ _ _ _ H1). done.
Qed.

Lemma mapM_length l st st' ys :
  mapM f l st = (st', inr ys) → length ys = length l.
Proof.
  revert st ys. induction l as [|x l IH]; intros st ys H; simpl in *.
  - unfold ret in H. by simplify_eq.
  - inv_bind H. simpl. f_equal. eauto.
Qed.

Lemma mapM_singleton x st :
  mapM f [x] st =
    match f x st with
    | (s, inr y) => (s, inr [y])
    | (s, inl e) => (s, inl e)
    end.
Proof. simpl. unfold bind, ret. by destruct (f x st) as [? []]. Qed.
End mapM.

(** ** JavaScript helpers *)

Lemma truthy_Some v s : truthy v = Some s ↔ v = Some s ∧ s ≠ "".
Proof.
  unfold truthy. destruct v as [s'|]; [|naive_solver].
  destruct (decide (s' = "")); naive_solver.
Qed.

Lemma truthy_None v : truthy v = None ↔ v = None ∨ v = Some "".
Proof.
  unfold truthy. destruct v as [s'|]; [|naive_solver].
  destruct (decide (s' = "")); naive_solver.
Qed.

Lemma arrayFromSet_step_elem (xs acc : list string) x :
  x ∈ foldl (λ acc x, if bool_decide (x ∈ acc) then acc else acc ++ [x]) acc xs
  ↔ x ∈ acc ∨ x ∈ xs.
Proof.
  revert acc. induction xs as [|y xs IH]; intros acc; simpl.
  - rewrite elem_of_nil. tauto.
  - rewrite IH, elem_of_cons. case_bool_decide.
    + split; [tauto|]. intros [?|[->|?]]; tauto.
    + rewrite elem_of_app, list_elem_of_singleton. tauto.
Qed.

Lemma elem_of_arrayFromSet xs x : x ∈ arrayFromSet xs ↔ x ∈ xs.
Proof.
  unfold arrayFromSet. rewrite arrayFromSet_step_elem, elem_of_nil. tauto.
Qed.

Lemma arrayFromSet_step_NoDup (xs acc : list string) :
  NoDup acc →
  NoDup (foldl (λ acc x, if bool_decide (x ∈ acc) then acc else acc ++ [x]) acc xs).
Proof.
  revert acc. induction xs as [|y xs IH]; intros acc Hacc; simpl; [done|].
  apply IH. case_bool_decide; [done|].
  apply NoDup_app. split_and!; [done| |apply NoDup_singleton].
  intros z Hz ->%list_elem_of_singleton. done.
Qed.

Lemma arrayFromSet_NoDup xs : NoDup (arrayFromSet xs).
Proof. apply arrayFromSet_step_NoDup, NoDup_nil_2. Qed.

Lemma arrayFromSet_nil xs : arrayFromSet xs = [] ↔ xs = [].
Proof.
  split; [|by intros ->].
  destruct xs as [|x xs]; [done|]. intros H.
  assert (x ∈ arrayFromSet (x :: xs)) as Hx
    by (apply elem_of_arrayFromSet; left).
  rewrite H in Hx. by apply elem_of_nil in Hx.
Qed.

Section mapSetAll.
Context {V : Type}.
Implicit Types (m : gmap string V) (kvs : list (string * V)).

Lemma mapSetAll_lookup_Some m kvs k v :
  mapSetAll m kvs !! k = Some v → m !! k = Some v ∨ (k, v) ∈ kvs.
Proof.
  revert m. induction kvs as [|[k' v'] kvs IH]; intros m; simpl; [auto|].
  intros [H|H]%IH.
  - destruct (decide (k' = k)) as [->|Hne].
    + rewrite lookup_insert_eq in H. simplify_eq. right. left.
    + rewrite lookup_insert_ne in H by done. auto.
  - right. by right.
Qed.

Lemma mapSetAll_is_Some m kvs k :
  is_Some (m !! k) ∨ k ∈ kvs.*1 → is_Some (mapSetAll m kvs !! k).
Proof.
  revert m. induction kvs as [|[k' v'] kvs IH]; intros m; simpl.
  - rewrite elem_of_nil. tauto.
  - rewrite elem_of_cons. intros H. apply IH.
    destruct (decide (k' = k)) as [->|Hne].
    + left. rewrite lookup_insert_eq. eauto.
    + rewrite lookup_insert_ne by done. naive_solver.
Qed.

Lemma mapSetAll_lookup_None m kvs k :
  mapSetAll m kvs !! k = None → m !! k = None ∧ k ∉ kvs.*1.
Proof.
  intros H. split.
  - destruct (m !! k) eqn:E; [|done].
    destruct (mapSetAll_is_Some m kvs k) as [? ?]; [left; eauto|congruence].
  - intros Hin. destruct (mapSetAll_is_Some m kvs k) as [? ?]; [by right|congruence].
Qed.
End mapSetAll.

(** ** The attribute key table *)

Lemma keyExists_hasKey keys k env : keyExists keys k env = true ↔ hasKey keys k env.
Proof.
  unfold keyExists, hasKey. rewrite existsb_exists. split.
  - intros ([kid row] & Hin%list_elem_of_In%elem_of_map_to_list & H).
    apply andb_true_iff in H as [?%bool_decide_eq_true ?%bool_decide_eq_true].
    eauto.
  - intros (kid & row & Hl & Hk & He). exists (kid, row). split.
    + by apply list_elem_of_In, elem_of_map_to_list.
    + apply andb_true_iff. by rewrite !bool_decide_eq_true.
Qed.

Lemma hasKey_mono keys keys' k env :
  keys ⊆ keys' → hasKey keys k env → hasKey keys' k env.
Proof.
  intros Hsub (kid & row & Hl & ?). exists kid, row. split; [|done].
  by eapply lookup_weaken.
Qed.

Lemma elem_of_findManyAttributeKeys env only st k kid :
  (k, kid) ∈ findManyAttributeKeys env only st ↔
  ∃ row, contactAttributeKey st !! kid = Some row ∧ key row = k ∧
         keyEnvironmentId row = env ∧
         match only with Some ks => k ∈ ks | None => True end.
Proof.
  unfold findManyAttributeKeys. rewrite list_elem_of_omap. split.
  - intros ([kid' row] & Hin%elem_of_map_to_list & H).
    destruct (bool_decide (keyEnvironmentId row = env)) eqn:E1; simpl in H; [|done].
    apply bool_decide_eq_true in E1.
    destruct only as [ks|].
    + case_bool_decide; simplify_eq. eauto.
    + simplify_eq. eauto.
  - intros (row & Hl & <- & <- & Ho). exists (kid, row). split.
    + by apply elem_of_map_to_list.
    + rewrite bool_decide_eq_true_2 by done. simpl.
      destruct only; [rewrite bool_decide_eq_true_2 by done|]; done.
Qed.

Lemma createKey_subseteq keys row : keys ⊆ createKey keys row.
Proof.
  unfold createKey. destruct (keyExists _ _ _); [done|].
  apply insert_subseteq, not_elem_of_dom, is_fresh.
Qed.

Lemma createMany_subseteq data keys : keys ⊆ foldl createKey keys data.
Proof.
  revert keys. induction data as [|d data IH]; intros keys; simpl; [done|].
  etrans; [apply createKey_subseteq|apply IH].
Qed.

Lemma createKey_hasKey keys row :
  hasKey (createKey keys row) (key row) (keyEnvironmentId row).
Proof.
  unfold createKey. destruct (keyExists _ _ _) eqn:E.
  - by apply keyExists_hasKey.
  - exists (fresh (dom keys)), row. by rewrite lookup_insert_eq.
Qed.

Lemma createMany_hasKey data keys d :
  d ∈ data → hasKey (foldl createKey keys data) (key d) (keyEnvironmentId d).
Proof.
  revert keys. induction data as [|d' data IH]; intros keys Hd; simpl.
  - by apply elem_of_nil in Hd.
  - apply elem_of_cons in Hd as [->|Hd]; [|by apply IH].
    eapply hasKey_mono; [apply createMany_subseteq|apply createKey_hasKey].
Qed.

Lemma createKey_lookup keys row kid r :
  createKey keys row !! kid = Some r →
  keys !! kid = Some r ∨
  (keys !! kid = None ∧ r = row ∧ kid = fresh (dom keys) ∧
   ¬ hasKey keys (key row) (keyEnvironmentId row)).
Proof.
  unfold createKey. destruct (keyExists _ _ _) eqn:E; [auto|].
  destruct (decide (fresh (dom keys) = kid)) as [<-|Hne].
  - rewrite lookup_insert_eq. intros [= <-]. right. split_and!; [|done|done|].
    + apply not_elem_of_dom, is_fresh.
    + rewrite <-keyExists_hasKey, E. done.
  - rewrite lookup_insert_ne by done. auto.
Qed.

Lemma createMany_lookup data keys kid r :
  foldl createKey keys data !! kid = Some r →
  keys !! kid = Some r ∨ (keys !! kid = None ∧ r ∈ data).
Proof.
  revert keys. induction data as [|d data IH]; intros keys; simpl; [auto|].
  intros [H|[H Hin]]%IH.
  - apply createKey_lookup in H as [?|(? & -> & _)]; [auto|].
    right. split; [done|left].
  - right. split; [|by right].
    destruct (keys !! kid) eqn:E; [|done].
    apply (lookup_weaken _ (createKey keys d)) in E; [congruence|].
    apply createKey_subseteq.
Qed.

Lemma createKey_keysUnique keys row :
  keysUnique keys → keysUnique (createKey keys row).
Proof.
  intros Hu i j ri rj Hi Hj Hk He.
  apply createKey_lookup in Hi as [Hi|(Hi & -> & -> & Hni)];
    apply createKey_lookup in Hj as [Hj|(Hj & -> & -> & Hnj)].
  - eauto.
  - destruct Hnj. exists i, ri. done.
  - destruct Hni. exists j, rj. done.
  - done.
Qed.

Lemma createMany_keysUnique data keys :
  keysUnique keys → keysUnique (foldl createKey keys data).
Proof.
  revert keys. induction data as [|d data IH]; intros keys Hu; simpl; [done|].
  by apply IH, createKey_keysUnique.
Qed.

(** ** Attribute key reconciliation (lines 281-323) *)

Lemma elem_of_objectKeys (record : CsvRecord) k :
  k ∈ objectKeys record ↔ is_Some (record !! k).
Proof.
  unfold objectKeys. rewrite list_elem_of_fmap. split.
  - intros ([k' v] & -> & Hin%elem_of_map_to_list). eauto.
  - intros [v Hv]. exists (k, v). split; [done|]. by apply elem_of_map_to_list.
Qed.

Lemma elem_of_csvKeysOf csvData k :
  k ∈ csvKeysOf csvData ↔ ∃ r : CsvRecord, r ∈ csvData ∧ is_Some (r !! k).
Proof.
  unfold csvKeysOf. rewrite elem_of_arrayFromSet, list_elem_of_bind.
  setoid_rewrite elem_of_objectKeys. naive_solver.
Qed.

(** The map built from the key rows of [env]: sound, and complete for the
    keys that have a row. *)
Lemma existingKeyMap_sound env st :
  akmSound env (mapSetAll ∅ (findManyAttributeKeys env None st))
           (contactAttributeKey st).
Proof.
  intros k kid [H|H]%mapSetAll_lookup_Some; [by rewrite lookup_empty in H|].
  apply elem_of_findManyAttributeKeys in H as (row & ? & ? & ? & _). eauto.
Qed.

Lemma existingKeyMap_complete env st k :
  hasKey (contactAttributeKey st) k env ↔
  is_Some (mapSetAll ∅ (findManyAttributeKeys env None st) !! k).
Proof.
  split.
  - intros (kid & row & Hl & Hk & He). apply mapSetAll_is_Some. right.
    apply list_elem_of_fmap. exists (k, kid). split; [done|].
    apply elem_of_findManyAttributeKeys. eauto.
  - intros [kid H]. destruct (existingKeyMap_sound env st k kid H) as (row & ?).
    exists kid, row. done.
Qed.

Lemma reconcileAttributeKeys_spec env csvData st :
  ∃ st' akm, reconcileAttributeKeys env csvData st = (st', inr akm) ∧
             Reconciled env csvData st st' akm.
Proof.
  unfold reconcileAttributeKeys, bind, read.
  set (akm0 := mapSetAll ∅ (findManyAttributeKeys env None st)).
  set (missing := filter (λ k, akm0 !! k = None) (csvKeysOf csvData)).
  assert (Hmiss : ∀ k, k ∈ missing ↔
            k ∈ csvKeysOf csvData ∧ ¬ hasKey (contactAttributeKey st) k env).
  { intros k. unfold missing. rewrite list_elem_of_filter.
    rewrite existingKeyMap_complete, <-eq_None_not_Some. tauto. }
  case_bool_decide as Hlen.
  - set (data := (λ k, mkKey k k env) <$> missing).
    set (keys' := foldl createKey (contactAttributeKey st) data).
    set (st' := mkStore (contact st) keys').
    unfold createManyAttributeKeys, ret. fold data keys' st'.
    eexists _, _. split; [reflexivity|].
    assert (Hsub : contactAttributeKey st ⊆ keys') by apply createMany_subseteq.
    split; simpl.
    + done.
    + done.
    + intros k kid [H|H]%mapSetAll_lookup_Some.
      * destruct (existingKeyMap_sound env st k kid H) as (row & Hl & ?).
        exists row. split; [|done]. by eapply lookup_weaken.
      * apply elem_of_findManyAttributeKeys in H as (row & ? & ? & ? & _). eauto.
    + intros r k Hr Hk. apply mapSetAll_is_Some.
      destruct (akm0 !! k) eqn:E; [left; eauto|right].
      assert (k ∈ missing) as Hm.
      { apply list_elem_of_filter. split; [done|].
        apply elem_of_csvKeysOf. eauto. }
      destruct (createMany_hasKey data (contactAttributeKey st) (mkKey k k env))
        as (kid & row & Hl & Hkey & Henv).
      { apply list_elem_of_fmap. eauto. }
      apply list_elem_of_fmap. exists (k, kid). split; [done|].
      apply elem_of_findManyAttributeKeys. exists row. done.
    + apply createMany_keysUnique.
    + intros kid row [H|[H Hin]]%createMany_lookup; [auto|right].
      split; [done|]. apply list_elem_of_fmap in Hin as (k & -> & Hk).
      apply Hmiss in Hk as [? ?]. eauto.
    + intros Hall. exfalso. destruct missing as [|k ?] eqn:E; [simpl in Hlen; lia|].
      assert (k ∈ k :: l) as Hk%Hmiss by left. destruct Hk as [Hk Hn]. auto.
  - unfold ret. eexists _, _. split; [reflexivity|].
    assert (missing = []) as Hnil.
    { destruct missing; [done|]. simpl in Hlen. lia. }
    split; try done.
    + apply existingKeyMap_sound.
    + intros r k Hr Hk.
      destruct (akm0 !! k) eqn:E; [eauto|]. exfalso.
      assert (k ∈ missing) as Hm.
      { apply list_elem_of_filter. split; [done|].
        apply elem_of_csvKeysOf. eauto. }
      rewrite Hnil in Hm. by apply elem_of_nil in Hm.
    + auto.
Qed.

(** ** Attribute rows of a contact *)

Lemma NoDup_omap_strong {A B} (f : A → option B) (l : list A) :
  (∀ x y z, x ∈ l → y ∈ l → f x = Some z → f y = Some z → x = y) →
  NoDup l → NoDup (omap f l).
Proof.
  induction l as [|x l IH]; intros Hinj Hnd; simpl; [constructor|].
  apply NoDup_cons in Hnd as [Hx Hnd].
  assert (NoDup (omap f l)) as IH'.
  { apply IH; [|done]. intros ??????. eapply Hinj; by try right. }
  destruct (f x) as [z|] eqn:E; [|done].
  apply NoDup_cons. split; [|done].
  intros (y & Hy & Hfy)%list_elem_of_omap.
  assert (x = y) as -> by (eapply Hinj; [left|by right|done..]). done.
Qed.

Lemma elem_of_joinAttributes keys attrs a :
  a ∈ joinAttributes keys attrs ↔
  ∃ row, attrs !! attributeKey_id a = Some (attribute_value a) ∧
         keys !! attributeKey_id a = Some row ∧ key row = attributeKey_key a.
Proof.
  unfold joinAttributes. rewrite list_elem_of_omap. split.
  - intros ([kid v] & Hin%elem_of_map_to_list & H).
    destruct (keys !! kid) as [row|] eqn:E; simpl in H; simplify_eq. simpl. eauto.
  - intros (row & Ha & Hk & Hkey). exists (attributeKey_id a, attribute_value a).
    split; [by apply elem_of_map_to_list|]. rewrite Hk. simpl.
    destruct a; simpl in *. by subst.
Qed.

Lemma elem_of_includeAttributes keys attrs k v :
  (k, v) ∈ includeAttributes keys attrs ↔
  ∃ kid row, attrs !! kid = Some v ∧ keys !! kid = Some row ∧ key row = k.
Proof.
  unfold includeAttributes. rewrite list_elem_of_fmap. split.
  - intros (a & [= -> ->] & (row & ? & ? & ?)%elem_of_joinAttributes). eauto.
  - intros (kid & row & Ha & Hk & Hkey). exists (mkSel k kid v). split; [done|].
    apply elem_of_joinAttributes. simpl. eauto.
Qed.

Lemma includeAttributes_omap keys attrs :
  includeAttributes keys attrs =
  omap (λ '(kid, v), (λ row, (key row, v)) <$> keys !! kid) (map_to_list attrs).
Proof.
  unfold includeAttributes, joinAttributes.
  induction (map_to_list attrs) as [|[kid v] l IH]; [done|]. csimpl.
  destruct (keys !! kid); csimpl; by rewrite IH.
Qed.

Lemma elem_of_resolveEntries akm (record : CsvRecord) o v :
  (o, v) ∈ resolveEntries akm record ↔ ∃ k, record !! k = Some v ∧ o = akm !! k.
Proof.
  unfold resolveEntries, objectEntries. rewrite list_elem_of_fmap. split.
  - intros ([k v'] & [= -> ->] & Hin%elem_of_map_to_list). eauto.
  - intros (k & Hr & ->). exists (k, v). split; [done|]. by apply elem_of_map_to_list.
Qed.

Lemma akmSound_inj env akm keys k1 k2 kid :
  akmSound env akm keys → akm !! k1 = Some kid → akm !! k2 = Some kid → k1 = k2.
Proof.
  intros Hs (r1 & H1 & <- & _)%Hs (r2 & H2 & <- & _)%Hs. congruence.
Qed.

Lemma resolveEntries_Forall env akm keys record :
  Resolves env akm keys record →
  Forall (λ it, is_Some it.1) (resolveEntries akm record).
Proof.
  intros [_ Hc]. apply Forall_forall. intros [o v] (k & Hr & ->)%elem_of_resolveEntries.
  simpl. apply Hc. eauto.
Qed.

Lemma resolveEntries_NoDup env akm keys record :
  Resolves env akm keys record → NoDup ((resolveEntries akm record).*1).
Proof.
  intros [Hs Hc]. unfold resolveEntries, objectEntries.
  rewrite <-list_fmap_compose. apply NoDup_fmap_2_strong; [|apply NoDup_map_to_list].
  intros [k1 v1] [k2 v2] H1%elem_of_map_to_list H2%elem_of_map_to_list. simpl.
  intros Heq. destruct (Hc k1) as [kid Hk]; [eauto|]. rewrite Hk in Heq.
  assert (k1 = k2) as -> by (eapply akmSound_inj; eauto). congruence.
Qed.

Lemma nestedCreate_spec items attrs :
  Forall (λ it, is_Some it.1) items → NoDup (items.*1) →
  (∀ kid v, (Some kid, v) ∈ items → attrs !! kid = None) →
  ∃ attrs', nestedCreate items attrs = inr attrs' ∧
    ∀ kid v, attrs' !! kid = Some v ↔ (Some kid, v) ∈ items ∨ attrs !! kid = Some v.
Proof.
  revert attrs. induction items as [|[o v0] items IH]; intros attrs Hall Hnd Hfree.
  - exists attrs. split; [done|]. intros. rewrite elem_of_nil. tauto.
  - apply Forall_cons in Hall as [[kid0 Ho] Hall]. simpl in Ho. subst o.
    simpl in Hnd. apply NoDup_cons in Hnd as [Hnotin Hnd].
    simpl. rewrite (Hfree kid0 v0) by left.
    assert (∀ v, (Some kid0, v) ∉ items) as Hno.
    { intros v Hin. apply Hnotin, list_elem_of_fmap. by exists (Some kid0, v). }
    destruct (IH (<[kid0 := v0]> attrs) Hall Hnd) as (attrs' & -> & Hchar).
    { intros kid v Hin. rewrite lookup_insert_ne; [apply (Hfree kid v); by right|].
      intros ->. by eapply Hno. }
    exists attrs'. split; [done|]. intros kid v. rewrite Hchar, elem_of_cons.
    destruct (decide (kid = kid0)) as [->|Hne].
    + rewrite lookup_insert_eq, (Hfree kid0 v0) by left.
      split; [intros [?|[= ->]]; auto|]. intros [[[= ->]|?]|?]; auto; done.
    + rewrite lookup_insert_ne by done. split; [tauto|].
      intros [[[= ->]|?]|?]; tauto.
Qed.

Lemma nestedUpsert_spec items attrs :
  Forall (λ it, is_Some it.1) items → NoDup (items.*1) →
  ∃ attrs', nestedUpsert items attrs = inr attrs' ∧
    ∀ kid v, attrs' !! kid = Some v ↔
      (Some kid, v) ∈ items ∨ ((Some kid ∉ items.*1) ∧ attrs !! kid = Some v).
Proof.
  revert attrs. induction items as [|[o v0] items IH]; intros attrs Hall Hnd.
  - exists attrs. split; [done|]. intros. simpl. rewrite !elem_of_nil. tauto.
  - apply Forall_cons in Hall as [[kid0 Ho] Hall]. simpl in Ho. subst o.
    simpl in Hnd. apply NoDup_cons in Hnd as [Hnotin Hnd]. simpl.
    assert (∀ v, (Some kid0, v) ∉ items) as Hno.
    { intros v Hin. apply Hnotin, list_elem_of_fmap. by exists (Some kid0, v). }
    destruct (IH (<[kid0 := v0]> attrs) Hall Hnd) as (attrs' & -> & Hchar).
    exists attrs'. split; [done|]. intros kid v.
    rewrite Hchar, !elem_of_cons.
    destruct (decide (kid = kid0)) as [->|Hne].
    + rewrite lookup_insert_eq. split.
      * intros [?|[_ [= ->]]]; [by destruct (Hno v)|auto].
      * intros [[[= ->]|?]|[Hn _]]; [auto|by destruct (Hno v)|].
        destruct Hn. by left.
    + rewrite lookup_insert_ne by done. split.
      * intros [?|[? ?]]; [auto|]. right. split; [|done]. intros [[= ?]|?]; done.
      * intros [[[= ?]|?]|[Hn ?]]; [done|auto|]. right. split; [|done].
        intros ?. apply Hn. by right.
Qed.

(** The attribute rows written from a record are, once joined with their
    keys, the entries of the record. *)
Lemma written_attributes_perm env akm keys (record : CsvRecord)
    (attrs : gmap positive string) :
  Resolves env akm keys record →
  (∀ kid v, attrs !! kid = Some v ↔ ∃ k, record !! k = Some v ∧ akm !! k = Some kid) →
  includeAttributes keys attrs ≡ₚ map_to_list record.
Proof.
  intros [Hs Hc] Hchar. apply NoDup_Permutation.
  - rewrite includeAttributes_omap. apply NoDup_omap_strong; [|apply NoDup_map_to_list].
    intros [kid1 v1] [kid2 v2] [k v] H1%elem_of_map_to_list H2%elem_of_map_to_list.
    destruct (keys !! kid1) as [row1|] eqn:E1; simpl; [|done].
    destruct (keys !! kid2) as [row2|] eqn:E2; simpl; [|done].
    intros [= <- <-] [= Hk <-].
    apply Hchar in H1 as (k1 & _ & Hk1). apply Hchar in H2 as (k2 & _ & Hk2).
    destruct (Hs _ _ Hk1) as (r1 & ? & ? & _), (Hs _ _ Hk2) as (r2 & ? & ? & _).
    simplify_eq. assert (kid1 = kid2) by congruence. congruence.
  - apply NoDup_map_to_list.
  - intros [k v]. rewrite elem_of_includeAttributes, elem_of_map_to_list. split.
    + intros (kid & row & (k' & Hr & Hk')%Hchar & Hrow & <-).
      destruct (Hs _ _ Hk') as (r' & ? & ? & _). by simplify_eq.
    + intros Hr. destruct (Hc k) as [kid Hk]; [eauto|].
      destruct (Hs _ _ Hk) as (row & ? & ? & _).
      exists kid, row. split_and!; [|done..]. apply Hchar. eauto.
Qed.

(** ** The e-mail lookup table (lines 225-257) *)

Lemma emailToContactMapOf_lookup existing e c :
  emailToContactMapOf existing !! e = Some c →
  c ∈ existing ∧
  ∃ a, a ∈ existing_attributes c ∧ attributeKey_key a = "email" ∧ attribute_value a = e.
Proof.
  unfold emailToContactMapOf.
  assert (∀ acc : gmap string ExistingContact,
    foldl (λ acc c,
             match List.find (λ a, bool_decide (attributeKey_key a = "email"))
                             (existing_attributes c) with
             | Some emailAttr => <[attribute_value emailAttr := c]> acc
             | None => acc
             end) acc existing !! e = Some c →
    acc !! e = Some c ∨
    (c ∈ existing ∧ ∃ a, a ∈ existing_attributes c ∧
        attributeKey_key a = "email" ∧ attribute_value a = e)) as Hgen.
  { induction existing as [|c' existing IH]; intros acc; simpl; [auto|].
    intros [H|(Hin & a & Ha)]%IH.
    - destruct (List.find _ _) as [a|] eqn:E; [|auto].
      destruct (decide (attribute_value a = e)) as [<-|Hne].
      + rewrite lookup_insert_eq in H. simplify_eq. right. split; [left|].
        apply find_some in E as [Hin Hk]. apply bool_decide_eq_true in Hk.
        exists a. by rewrite list_elem_of_In.
      + rewrite lookup_insert_ne in H by done. auto.
    - right. split; [by right|eauto]. }
  intros [H|H]%Hgen; [by rewrite lookup_empty in H|done].
Qed.

Lemma elem_of_findManyContactsByEmail env csvEmails st c :
  c ∈ findManyContactsByEmail env csvEmails st →
  ∃ row, contact st !! existing_id c = Some row ∧ environmentId row = env ∧
         existing_attributes c =
           joinAttributes (contactAttributeKey st) (attributes row).
Proof.
  unfold findManyContactsByEmail.
  intros ([cid row] & Hin%elem_of_map_to_list & H)%list_elem_of_omap.
  destruct (bool_decide (environmentId row = env)) eqn:E; simpl in H; [|done].
  apply bool_decide_eq_true in E.
  destruct (existsb _ _); simplify_eq. simpl. eauto.
Qed.

(** An entry of the lookup table is a contact of the environment that
    carries the e-mail under a key named [email]. *)
Lemma emailToContactMap_lookup env csvData st e c :
  emailToContactMap env csvData st !! e = Some c →
  ∃ row kid krow,
    contact st !! existing_id c = Some row ∧ environmentId row = env ∧
    attributes row !! kid = Some e ∧
    contactAttributeKey st !! kid = Some krow ∧ key krow = "email".
Proof.
  unfold emailToContactMap.
  intros [Hin (a & Ha & Hk & Hv)]%emailToContactMapOf_lookup.
  apply elem_of_findManyContactsByEmail in Hin as (row & Hrow & Henv & Hattrs).
  rewrite Hattrs in Ha. apply elem_of_joinAttributes in Ha as (krow & ? & ? & ?).
  exists row, (attributeKey_id a), krow. subst e. split_and!; congruence.
Qed.

(** ** The lookup table finds the contacts that carry an e-mail *)

Lemma emailToContactMapOf_is_Some existing ec a e :
  ec ∈ existing →
  List.find (λ a, bool_decide (attributeKey_key a = "email")) (existing_attributes ec)
    = Some a →
  attribute_value a = e →
  is_Some (emailToContactMapOf existing !! e).
Proof.
  unfold emailToContactMapOf. intros Hin Hfind He.
  assert (∀ acc : gmap string ExistingContact,
    is_Some (acc !! e) ∨ ec ∈ existing →
    is_Some (foldl (λ acc c,
             match List.find (λ a, bool_decide (attributeKey_key a = "email"))
                             (existing_attributes c) with
             | Some emailAttr => <[attribute_value emailAttr := c]> acc
             | None => acc
             end) acc existing !! e)) as Hgen.
  { clear Hin. induction existing as [|c' existing IH]; intros acc; simpl.
    - intros [?|?%elem_of_nil]; done.
    - intros [Hacc|[<-|Hin]%elem_of_cons]; apply IH.
      + left. destruct (List.find _ (existing_attributes c')) as [a'|]; [|done].
        rewrite lookup_insert_is_Some'. by right.
      + left. rewrite Hfind, He. rewrite lookup_insert_is_Some'. by left.
      + by right. }
  apply Hgen. by right.
Qed.

(** If a record carries the non-empty e-mail [e] and a contact of the
    environment has [e] as its only attribute of a key named [email], then
    the lookup table maps [e] to a contact. *)
Lemma emailToContactMap_complete env csvData st (r : CsvRecord) e cid row kid krow :
  r ∈ csvData → r !! "email" = Some e → e ≠ "" →
  contact st !! cid = Some row → environmentId row = env →
  attributes row !! kid = Some e →
  contactAttributeKey st !! kid = Some krow → key krow = "email" →
  (∀ kid' krow', is_Some (attributes row !! kid') →
     contactAttributeKey st !! kid' = Some krow' → key krow' = "email" → kid' = kid) →
  is_Some (emailToContactMap env csvData st !! e).
Proof.
  intros Hr Hemail Hne Hrow Henv Hattr Hkrow Hkey Hone.
  set (attrs := joinAttributes (contactAttributeKey st) (attributes row)).
  assert (mkSel "email" kid e ∈ attrs) as Hsel.
  { apply elem_of_joinAttributes. simpl. eauto. }
  assert (e ∈ csvEmailsOf csvData) as Hcsv.
  { apply elem_of_arrayFromSet, list_elem_of_omap. exists r. split; [done|].
    by apply truthy_Some. }
  destruct (List.find (λ a, bool_decide (attributeKey_key a = "email")) attrs)
    as [a|] eqn:Hfind.
  - eapply (emailToContactMapOf_is_Some _ (mkExisting cid attrs) a); [|done|].
    + apply list_elem_of_omap. exists (cid, row). split; [by apply elem_of_map_to_list|].
      fold attrs. rewrite bool_decide_eq_true_2 by done. simpl.
      assert (existsb (λ a, bool_decide (attributeKey_key a = "email")
                            && bool_decide (attribute_value a ∈ csvEmailsOf csvData))
                      attrs = true) as ->; [|done].
      apply existsb_exists. exists (mkSel "email" kid e).
      split; [by apply list_elem_of_In|]. simpl.
      by rewrite bool_decide_eq_true_2.
    + apply find_some in Hfind as [Hin Hk]. apply bool_decide_eq_true in Hk.
      apply list_elem_of_In, elem_of_joinAttributes in Hin as (krow' & Ha & Hkr & Hkk).
      assert (attributeKey_id a = kid) as Hid by (eapply Hone; [eauto|done|congruence]).
      rewrite Hid in Ha. congruence.
  - exfalso. eapply find_none in Hfind; [|by apply list_elem_of_In].
    simpl in Hfind. done.
Qed.

(** ** One record (lines 328-438) *)

Section processRecord.
Context (env : string)
        (e2c : gmap string ExistingContact) (akm : gmap string positive).

Lemma entries_rows record kid v :
  (Some kid, v) ∈ resolveEntries akm record ↔
  ∃ k, record !! k = Some v ∧ akm !! k = Some kid.
Proof. rewrite elem_of_resolveEntries. naive_solver. Qed.

Lemma entries_ids record kid :
  Some kid ∈ (resolveEntries akm record).*1 ↔
  ∃ k, is_Some (record !! k) ∧ akm !! k = Some kid.
Proof.
  rewrite list_elem_of_fmap. split.
  - intros ([o v] & -> & (k & ? & ?)%elem_of_resolveEntries). simpl in *. eauto.
  - intros (k & [v Hv] & Hk). exists (Some kid, v). split; [done|].
    apply elem_of_resolveEntries. eauto.
Qed.

Lemma processRecord_dropped act record s :
  truthy (record !! "email") = None →
  processRecord env act e2c akm record s = (s, inr None).
Proof. unfold processRecord. by intros ->. Qed.

Lemma processRecord_create act record s e :
  truthy (record !! "email") = Some e → e2c !! e = None →
  Resolves env akm (contactAttributeKey s) record →
  ∃ attrs,
    let id := fresh (dom (contact s)) in
    let c' := mkContact env attrs in
    let s' := mkStore (<[id := c']> (contact s)) (contactAttributeKey s) in
    processRecord env act e2c akm record s = (s', inr (Some (toTContact s' id c'))) ∧
    rowsOf akm record attrs.
Proof.
  intros He Hnone Hres. unfold processRecord. rewrite He, Hnone.
  destruct (nestedCreate_spec (resolveEntries akm record) ∅) as (attrs & Hw & Hchar).
  - by eapply resolveEntries_Forall.
  - by eapply resolveEntries_NoDup.
  - intros. apply lookup_empty.
  - exists attrs. simpl. unfold bind, contactCreate, ret. rewrite Hw. split; [done|].
    intros kid v. rewrite Hchar, entries_rows, lookup_empty. naive_solver.
Qed.
Lemma processRecord_skip record s e c :
  truthy (record !! "email") = Some e → e2c !! e = Some c →
  processRecord env skip e2c akm record s = (s, inr None).
Proof. unfold processRecord. by intros -> ->. Qed.

Lemma processRecord_overwrite record s e c c0 :
  truthy (record !! "email") = Some e → e2c !! e = Some c →
  contact s !! existing_id c = Some c0 →
  Resolves env akm (contactAttributeKey s) record →
  ∃ attrs,
    let id := existing_id c in
    let c' := mkContact (environmentId c0) attrs in
    let s' := mkStore (<[id := c']> (contact s)) (contactAttributeKey s) in
    processRecord env overwrite e2c akm record s
      = (s', inr (Some (toTContact s' id c'))) ∧
    rowsOf akm record attrs.
Proof.
  intros He Hc Hc0 Hres. unfold processRecord. rewrite He, Hc.
  destruct (nestedCreate_spec (resolveEntries akm record) ∅) as (attrs & Hw & Hchar).
  - by eapply resolveEntries_Forall.
  - by eapply resolveEntries_NoDup.
  - intros. apply lookup_empty.
  - exists attrs. simpl.
    unfold bind, deleteManyContactAttributes, contactUpdate, ret. simpl.
    rewrite lookup_alter_eq, Hc0. simpl. rewrite Hw. simpl.
    rewrite insert_alter_eq. split; [done|].
    intros kid v. rewrite Hchar, entries_rows, lookup_empty. naive_solver.
Qed.

Lemma processRecord_update record s e c c0 :
  truthy (record !! "email") = Some e → e2c !! e = Some c →
  contact s !! existing_id c = Some c0 →
  Resolves env akm (contactAttributeKey s) record →
  ∃ attrs,
    let id := existing_id c in
    let c' := mkContact (environmentId c0) attrs in
    let s' := mkStore (<[id := c']> (contact s)) (contactAttributeKey s) in
    processRecord env update e2c akm record s
      = (s', inr (Some (toTContact s' id c'))) ∧
    ∀ kid v, attrs !! kid = Some v ↔
      (∃ k, record !! k = Some v ∧ akm !! k = Some kid) ∨
      ((¬ ∃ k, is_Some (record !! k) ∧ akm !! k = Some kid) ∧
       attributes c0 !! kid = Some v).
Proof.
  intros He Hc Hc0 Hres. unfold processRecord. rewrite He, Hc.
  destruct (nestedUpsert_spec (resolveEntries akm record) (attributes c0))
    as (attrs & Hw & Hchar).
  - by eapply resolveEntries_Forall.
  - by eapply resolveEntries_NoDup.
  - exists attrs. simpl. unfold bind, contactUpdate, ret. rewrite Hc0, Hw.
    split; [done|].
    intros kid v. by rewrite Hchar, entries_rows, entries_ids.
Qed.

(** Every branch succeeds; the key table is never touched and no
    contact disappears. *)
Lemma processRecord_total act record s :
  Resolves env akm (contactAttributeKey s) record →
  (∀ e c, e2c !! e = Some c → is_Some (contact s !! existing_id c)) →
  ∃ s' o,
    processRecord env act e2c akm record s = (s', inr o) ∧
    contactAttributeKey s' = contactAttributeKey s ∧
    (∀ cid, is_Some (contact s !! cid) → is_Some (contact s' !! cid)) ∧
    (is_Some o ↔ writesContact act e2c record = true).
Proof.
  intros Hres Hex. unfold writesContact.
  destruct (truthy (record !! "email")) as [e|] eqn:He.
  - destruct (e2c !! e) as [c|] eqn:Hc.
    + destruct (Hex _ _ Hc) as [c0 Hc0]. destruct act.
      * rewrite (processRecord_skip _ _ e c) by done. exists s, None.
        split_and!; [done..|]. split; [by intros []|done].
      * destruct (processRecord_update record s e c c0) as (attrs & -> & _); try done.
        eexists _, _. split_and!; [done|done| |by split].
        intros cid. simpl. rewrite lookup_insert_is_Some'. tauto.
      * destruct (processRecord_overwrite record s e c c0) as (attrs & -> & _); try done.
        eexists _, _. split_and!; [done|done| |by split].
        intros cid. simpl. rewrite lookup_insert_is_Some'. tauto.
    + destruct (processRecord_create act record s e) as (attrs & -> & _); try done.
      eexists _, _. split_and!; [done|done| |by destruct act; split].
      intros cid. simpl. rewrite lookup_insert_is_Some'. tauto.
  - rewrite processRecord_dropped by done. exists s, None.
    split_and!; [done..|]. split; [by intros []|done].
Qed.
End processRecord.

(** ** The userId check (lines 259-279) *)

Lemma elem_of_findManyUserIds env csvUserIds st u :
  u ∈ findManyUserIds env csvUserIds st ↔ u ∈ csvUserIds ∧ userIdExists st env u.
Proof.
  unfold findManyUserIds, userIdExists. rewrite list_elem_of_bind. split.
  - intros ([cid c] & Hin & Hc%elem_of_map_to_list).
    apply list_elem_of_bind in Hin as ([kid v] & Hin & Ha%elem_of_map_to_list).
    destruct (contactAttributeKey st !! kid) as [row|] eqn:Hrow;
      [|by apply elem_of_nil in Hin].
    destruct (bool_decide (key row = "userId")) eqn:E1; simpl in Hin;
      [|by apply elem_of_nil in Hin].
    destruct (bool_decide (keyEnvironmentId row = env)) eqn:E2; simpl in Hin;
      [|by apply elem_of_nil in Hin].
    destruct (bool_decide (v ∈ csvUserIds)) eqn:E3; simpl in Hin;
      [|by apply elem_of_nil in Hin].
    apply list_elem_of_singleton in Hin as ->.
    apply bool_decide_eq_true in E1, E2, E3.
    split; [done|]. exists cid, c, kid, row. done.
  - intros [Hu (cid & c & kid & row & Hc & Ha & Hrow & Hk & He)].
    exists (cid, c). split; [|by apply elem_of_map_to_list].
    apply list_elem_of_bind. exists (kid, u). split; [|by apply elem_of_map_to_list].
    rewrite Hrow, !bool_decide_eq_true_2 by done. simpl. left.
Qed.

Lemma checkDuplicateUserIds_cases env csvUserIds st :
  (checkDuplicateUserIds env csvUserIds st = (st, inr tt) ∧
   ∀ u, u ∈ csvUserIds → ¬ userIdExists st env u) ∨
  (∃ u, checkDuplicateUserIds env csvUserIds st =
          (st, inl (ValidationError (userIdMessage u))) ∧
        u ∈ csvUserIds ∧ userIdExists st env u).
Proof.
  unfold checkDuplicateUserIds. case_bool_decide as Hlen.
  - unfold bind, read. destruct (findManyUserIds env csvUserIds st) as [|u l] eqn:E.
    + left. split; [done|]. intros u Hu Hex.
      assert (u ∈ findManyUserIds env csvUserIds st) as Hin
        by by apply elem_of_findManyUserIds.
      rewrite E in Hin. by apply elem_of_nil in Hin.
    + right. exists u. split; [done|]. apply elem_of_findManyUserIds.
      rewrite E. left.
  - left. split; [done|]. intros u Hu. destruct csvUserIds; [|simpl in Hlen; lia].
    by apply elem_of_nil in Hu.
Qed.

(** ** Everything before the records (lines 219-323) *)

Lemma Running_Resolves env csvData e2c akm s (r : CsvRecord) :
  Running env csvData e2c akm s → r ∈ csvData →
  Resolves env akm (contactAttributeKey s) r.
Proof. intros [Hs Hc _] Hr. split; [done|]. intros k. by apply Hc. Qed.

Lemma prepare_cases env csvData st :
  (∃ s0 akm,
     prepare env csvData st = (s0, inr (emailToContactMap env csvData st, akm)) ∧
     Reconciled env csvData st s0 akm ∧
     Running env csvData (emailToContactMap env csvData st) akm s0 ∧
     ∀ u, u ∈ csvUserIdsOf csvData → ¬ userIdExists st env u) ∨
  (∃ u, prepare env csvData st = (st, inl (ValidationError (userIdMessage u))) ∧
     u ∈ csvUserIdsOf csvData ∧ userIdExists st env u).
Proof.
  unfold prepare. unfold bind at 1. unfold read at 1. cbv beta iota.
  destruct (checkDuplicateUserIds_cases env (csvUserIdsOf csvData) st)
    as [[Hck Hfree]|(u & Hck & Hu)].
  - left.
    destruct (reconcileAttributeKeys_spec env csvData st) as (s0 & akm & Hrec & Hspec).
    exists s0, akm. rewrite (bind_ok _ _ _ _ _ Hck), (bind_ok _ _ _ _ _ Hrec).
    split_and!; [done..| |done].
    destruct Hspec. split; [done..|].
    intros e c (row & _ & _ & Hrow & _)%emailToContactMap_lookup.
    rewrite rec_contact0. eauto.
  - right. exists u. split; [apply (bind_err _ _ _ _ _ Hck)|done].
Qed.

Lemma prepare_inr env csvData st s0 ctx :
  prepare env csvData st = (s0, inr ctx) →
  ctx.1 = emailToContactMap env csvData st ∧
  Reconciled env csvData st s0 ctx.2 ∧
  Running env csvData ctx.1 ctx.2 s0 ∧
  ∀ u, u ∈ csvUserIdsOf csvData → ¬ userIdExists st env u.
Proof.
  intros H. destruct (prepare_cases env csvData st)
    as [(s0' & akm & Hp & ?)|(u & Hp & _)]; rewrite Hp in H; simplify_eq. done.
Qed.

(** ** The records, one after the other *)

Lemma processRecord_Running env act csvData e2c akm (r : CsvRecord) s :
  Running env csvData e2c akm s → r ∈ csvData →
  ∃ s' o,
    processRecord env act e2c akm r s = (s', inr o) ∧
    Running env csvData e2c akm s' ∧
    contactAttributeKey s' = contactAttributeKey s ∧
    (∀ cid, is_Some (contact s !! cid) → is_Some (contact s' !! cid)) ∧
    (is_Some o ↔ writesContact act e2c r = true).
Proof.
  intros Hrun Hr.
  destruct (processRecord_total env e2c akm act r s) as (s' & o & Hp & Hk & Hd & Ho).
  - by eapply Running_Resolves.
  - by destruct Hrun.
  - exists s', o. split_and!; try done. destruct Hrun. split; [by rewrite Hk|done|].
    intros e c Hc. apply Hd. eauto.
Qed.

Lemma records_total env act csvData e2c akm (l : list CsvRecord) s :
  Running env csvData e2c akm s → l ⊆ csvData →
  ∃ s' results,
    mapM (processRecord env act e2c akm) l s = (s', inr results) ∧
    Running env csvData e2c akm s' ∧
    contactAttributeKey s' = contactAttributeKey s ∧
    (∀ cid, is_Some (contact s !! cid) → is_Some (contact s' !! cid)) ∧
    Forall2 (λ r o, is_Some o ↔ writesContact act e2c r = true) l results.
Proof.
  revert s. induction l as [|r l IH]; intros s Hrun Hsub.
  - exists s, []. by split_and!.
  - destruct (processRecord_Running env act csvData e2c akm r s)
      as (s1 & o & Hp & Hrun1 & Hk1 & Hd1 & Ho); [done|apply Hsub; left|].
    destruct (IH s1) as (s' & results & Hm & Hrun' & Hk' & Hd' & Hall);
      [done|intros x Hx; apply Hsub; by right|].
    exists s', (o :: results). simpl.
    rewrite (bind_ok _ _ _ _ _ Hp), (bind_ok _ _ _ _ _ Hm).
    split_and!; [done|done|congruence|auto|by constructor].
Qed.

(** ** The whole function *)

Lemma createContactsFromCSV_invalid schemas csvData env act attributeMap st :
  validInputs schemas csvData env attributeMap = false →
  createContactsFromCSV schemas csvData env act attributeMap st
  = (st, inl (ValidationError "Validation failed")).
Proof.
  unfold validInputs, createContactsFromCSV, validateInputs. intros ->. done.
Qed.

Lemma createContactsFromCSV_valid schemas csvData env act attributeMap st :
  validInputs schemas csvData env attributeMap = true →
  createContactsFromCSV schemas csvData env act attributeMap st
  = catchPrisma (ctx <- prepare env csvData;;
                 results <- mapM (processRecord env act ctx.1 ctx.2) csvData;;
                 ret (omap id results)) st.
Proof.
  unfold validInputs, createContactsFromCSV, validateInputs. intros ->. done.
Qed.

Lemma importPrefix_valid schemas csvData env act attributeMap n st :
  validInputs schemas csvData env attributeMap = true →
  importPrefix schemas csvData env act attributeMap n st
  = catchPrisma (ctx <- prepare env csvData;;
                 mapM (processRecord env act ctx.1 ctx.2) (take n csvData)) st.
Proof.
  unfold validInputs, importPrefix, validateInputs. intros ->. done.
Qed.

Lemma importPrefix_run schemas csvData env act attributeMap n st s0 ctx s results :
  validInputs schemas csvData env attributeMap = true →
  prepare env csvData st = (s0, inr ctx) →
  mapM (processRecord env act ctx.1 ctx.2) (take n csvData) s0 = (s, inr results) →
  importPrefix schemas csvData env act attributeMap n st = (s, inr results).
Proof.
  intros Hv Hp Hm. rewrite importPrefix_valid by done.
  apply catchPrisma_inr. by rewrite (bind_ok _ _ _ _ _ Hp).
Qed.

(** A successful call, taken apart. *)
Lemma import_success schemas csvData env act attributeMap st st' out :
  createContactsFromCSV schemas csvData env act attributeMap st = (st', inr out) →
  let e2c := emailToContactMap env csvData st in
  ∃ s0 akm results,
    validInputs schemas csvData env attributeMap = true ∧
    prepare env csvData st = (s0, inr (e2c, akm)) ∧
    Reconciled env csvData st s0 akm ∧
    Running env csvData e2c akm s0 ∧
    (∀ u, u ∈ csvUserIdsOf csvData → ¬ userIdExists st env u) ∧
    mapM (processRecord env act e2c akm) csvData s0 = (st', inr results) ∧
    out = omap id results.
Proof.
  intros H e2c.
  destruct (validInputs schemas csvData env attributeMap) eqn:Hv;
    [|by rewrite createContactsFromCSV_invalid in H].
  rewrite createContactsFromCSV_valid in H by done.
  rewrite catchPrisma_inr in H.
  apply bind_inr in H as (s0 & [e2c' akm] & Hp & H).
  apply bind_inr in H as (s' & results & Hm & H). unfold ret in H. simplify_eq.
  destruct (prepare_inr _ _ _ _ _ Hp) as (He & Hrec & Hr & Hfree). simpl in *.
  subst e2c'. exists s0, akm, results. done.
Qed.

(** The converse: valid inputs without a userId collision always import. *)
Lemma import_total schemas csvData env act attributeMap st :
  validInputs schemas csvData env attributeMap = true →
  (∀ u, u ∈ csvUserIdsOf csvData → ¬ userIdExists st env u) →
  ∃ st' out, createContactsFromCSV schemas csvData env act attributeMap st = (st', inr out).
Proof.
  intros Hv Hfree. rewrite createContactsFromCSV_valid by done.
  destruct (prepare_cases env csvData st)
    as [(s0 & akm & Hp & Hrec & Hr & _)|(u & _ & Hu & Hex)];
    [|by destruct (Hfree u)].
  destruct (records_total env act csvData _ akm csvData s0 Hr)
    as (st' & results & Hm & _); [done|].
  exists st', (omap id results). apply catchPrisma_inr.
  rewrite (bind_ok _ _ _ _ _ Hp). simpl. by rewrite (bind_ok _ _ _ _ _ Hm).
Qed.

(** The store just before and just after the chain of record [i]. *)
Lemma import_at_record schemas csvData env act attributeMap st st' out i (r : CsvRecord) :
  createContactsFromCSV schemas csvData env act attributeMap st = (st', inr out) →
  csvData !! i = Some r →
  let e2c := emailToContactMap env csvData st in
  ∃ akm s1 s2 res o results,
    importPrefix schemas csvData env act attributeMap i st = (s1, inr res) ∧
    importPrefix schemas csvData env act attributeMap (S i) st = (s2, inr (res ++ [o])) ∧
    importPrefix schemas csvData env act attributeMap (length csvData) st
      = (st', inr results) ∧
    results !! i = Some o ∧ out = omap id results ∧
    processRecord env act e2c akm r s1 = (s2, inr o) ∧
    Running env csvData e2c akm s1 ∧
    contactAttributeKey s1 = contactAttributeKey st' ∧
    (∀ cid, is_Some (contact st !! cid) → is_Some (contact s1 !! cid)).
Proof.
  intros H Hi e2c.
  destruct (import_success _ _ _ _ _ _ _ _ H)
    as (s0 & akm & results & Hv & Hp & Hrec & Hr0 & _ & Hm & ->).
  fold e2c in Hp, Hr0, Hm.
  pose proof Hm as Hm'.
  rewrite <-(take_drop_middle csvData i r Hi) in Hm'.
  apply mapM_app_inv in Hm' as (s1 & res & ys & Hpre & Hrest & ->).
  simpl in Hrest.
  apply bind_inr in Hrest as (s2 & o & Hstep & Hrest).
  apply bind_inr in Hrest as (s3 & ys' & Hpost & Hrest).
  unfold ret in Hrest. simplify_eq.
  destruct (records_total env act csvData e2c akm (take i csvData) s0 Hr0)
    as (s1' & res' & Hpre' & Hr1 & Hk1 & Hd1 & _); [apply subseteq_take|].
  assert (s1' = s1 ∧ res' = res) as [-> ->]
    by (rewrite Hpre in Hpre'; by simplify_eq).
  destruct (records_total env act csvData e2c akm csvData s0 Hr0)
    as (sF & resF & Hm' & _ & Hk' & _); [done|].
  assert (sF = st') as -> by (rewrite Hm in Hm'; by simplify_eq).
  exists akm, s1, s2, res, o, (res ++ o :: ys').
  assert (length res = i) as Hlen.
  { rewrite (mapM_length _ _ _ _ _ Hpre), length_take.
    apply lookup_lt_Some in Hi. lia. }
  split_and!.
  - by eapply importPrefix_run.
  - eapply importPrefix_run; [done..|]. simpl.
    rewrite (take_S_r _ _ _ Hi), (mapM_app _ _ _ _ _ _ Hpre), mapM_singleton.
    by rewrite Hstep.
  - eapply importPrefix_run; [done..|]. simpl. by rewrite take_ge.
  - rewrite lookup_app_r by lia. by rewrite Hlen, Nat.sub_diag.
  - done.
  - done.
  - done.
  - congruence.
  - intros cid Hc. apply Hd1. by rewrite (rec_contact _ _ _ _ _ Hrec).
Qed.

(** A successful call never touches the key table after the
    reconciliation, and the reconciliation never touches the contacts. *)
Lemma import_success_keys schemas csvData env act attributeMap st st' out :
  createContactsFromCSV schemas csvData env act attributeMap st = (st', inr out) →
  ∃ s0 akm,
    prepare env csvData st
      = (s0, inr (emailToContactMap env csvData st, akm)) ∧
    Reconciled env csvData st s0 akm ∧
    Running env csvData (emailToContactMap env csvData st) akm s0 ∧
    contactAttributeKey st' = contactAttributeKey s0.
Proof.
  intros H.
  destruct (import_success _ _ _ _ _ _ _ _ H)
    as (s0 & akm & results & Hv & Hp & Hrec & Hr0 & _ & Hm & ->).
  destruct (records_total env act csvData _ akm csvData s0 Hr0)
    as (sF & resF & Hm' & _ & Hk' & _); [done|].
  assert (sF = st') as -> by (rewrite Hm in Hm'; by simplify_eq).
  exists s0, akm. done.
Qed.

(** Under [skip] the records only ever add contacts. *)
Lemma processRecord_skip_subseteq env e2c akm record s s' o :
  processRecord env skip e2c akm record s = (s', inr o) →
  contact s ⊆ contact s'.
Proof.
  unfold processRecord. destruct (truthy _) as [e|]; [|by intros [= <- _]].
  destruct (e2c !! e); [by intros [= <- _]|].
  unfold bind, contactCreate, ret. destruct (nestedCreate _ _); [done|].
  intros [= <- _]. simpl. apply insert_subseteq, not_elem_of_dom, is_fresh.
Qed.

Lemma records_skip_subseteq env e2c akm l s s' results :
  mapM (processRecord env skip e2c akm) l s = (s', inr results) →
  contact s ⊆ contact s'.
Proof.
  revert s results. induction l as [|r l IH]; intros s results H; simpl in H.
  - unfold ret in H. by simplify_eq.
  - apply bind_inr in H as (s1 & o & Hstep & H).
    apply bind_inr in H as (s2 & ys & Hrest & H). unfold ret in H. simplify_eq.
    etrans; [by eapply processRecord_skip_subseteq|by eapply IH].
Qed.

(** A record without an e-mail value changes nothing and yields [null]. *)
Lemma import_dropped_record
    schemas csvData env act attributeMap st st' out i (r : CsvRecord) :
  createContactsFromCSV schemas csvData env act attributeMap st = (st', inr out) →
  csvData !! i = Some r →
  r !! "email" = None ∨ r !! "email" = Some "" →
  ∃ s res results,
    importPrefix schemas csvData env act attributeMap i st = (s, inr res) ∧
    importPrefix schemas csvData env act attributeMap (S i) st = (s, inr (res ++ [None])) ∧
    importPrefix schemas csvData env act attributeMap (length csvData) st
      = (st', inr results) ∧
    results !! i = Some None ∧
    out = omap id results.
Proof.
  intros H Hi Hemail%truthy_None.
  destruct (import_at_record _ _ _ _ _ _ _ _ _ _ H Hi)
    as (akm & s1 & s2 & res & o & results & H1 & H2 & H3 & H4 & H5 & Hstep & _).
  rewrite processRecord_dropped in Hstep by done. simplify_eq.
  exists s2, res, results. done.
Qed.

(** Every column of every record has a key row after a successful call;
    a row that was missing is created under the column's name. *)
Lemma import_creates_keys schemas csvData env act attributeMap st st' out k :
  createContactsFromCSV schemas csvData env act attributeMap st = (st', inr out) →
  k ∈ csvKeysOf csvData →
  hasKey (contactAttributeKey st') k env ∧
  (¬ hasKey (contactAttributeKey st) k env →
   ∃ kid, contactAttributeKey st !! kid = None ∧
          contactAttributeKey st' !! kid = Some (mkKey k k env)).
Proof.
  intros H (r & Hr & Hk)%elem_of_csvKeysOf.
  destruct (import_success_keys _ _ _ _ _ _ _ _ H) as (s0 & akm & _ & Hrec & Hrun & Hkeys).
  destruct (run_covers _ _ _ _ _ Hrun r k Hr Hk) as [kid Hid].
  destruct (run_sound _ _ _ _ _ Hrun _ _ Hid) as (row & Hrow & Hkey & Henv).
  rewrite Hkeys. split; [by exists kid, row|].
  intros Hnew. exists kid.
  destruct (rec_new _ _ _ _ _ Hrec _ _ Hrow) as [Hold|(Hnone & k' & _ & _ & ->)].
  - destruct Hnew. by exists kid, row.
  - simpl in Hkey. by subst k'.
Qed.

(** The three ways a call can end. *)
Lemma import_cases schemas csvData env act attributeMap st :
  (validInputs schemas csvData env attributeMap = false ∧
   createContactsFromCSV schemas csvData env act attributeMap st
   = (st, inl (ValidationError "Validation failed"))) ∨
  (validInputs schemas csvData env attributeMap = true ∧
   ∃ u, createContactsFromCSV schemas csvData env act attributeMap st
        = (st, inl (ValidationError (userIdMessage u))) ∧
        u ∈ csvUserIdsOf csvData ∧ userIdExists st env u) ∨
  (validInputs schemas csvData env attributeMap = true ∧
   ∃ st' out, createContactsFromCSV schemas csvData env act attributeMap st = (st', inr out)).
Proof.
  destruct (validInputs schemas csvData env attributeMap) eqn:Hv.
  - right. destruct (prepare_cases env csvData st)
      as [(s0 & akm & Hp & Hrec & Hr & Hfree)|(u & Hp & Hu & Hex)].
    + right. split; [done|]. by apply import_total.
    + left. split; [done|]. exists u. split; [|done].
      rewrite createContactsFromCSV_valid by done.
      unfold catchPrisma. by rewrite (bind_err _ _ _ _ _ Hp).
  - left. split; [done|]. by apply createContactsFromCSV_invalid.
Qed.

(** ** The scenarios of the spec, evaluated *)

Example scenario_create_and_drop :
  (createContactsFromCSV shapeSchemas scenarioBatch "env" update ∅ emptyStore).2
  = inr [mkTContact 1 "env" [("plan", "free"); ("email", "a@x.com")]].
Proof. vm_compute. reflexivity. Qed.

Example scenario_update_merges :
  (createContactsFromCSV shapeSchemas cityBatch "env" update ∅ storeWithContact).2
  = inr [mkTContact 1 "env"
           [("city", "NYC"); ("plan", "free"); ("email", "a@x.com")]].
Proof. vm_compute. reflexivity. Qed.

Example scenario_overwrite_replaces :
  (createContactsFromCSV shapeSchemas cityBatch "env" overwrite ∅ storeWithContact).2
  = inr [mkTContact 1 "env" [("city", "NYC"); ("email", "a@x.com")]].
Proof. vm_compute. reflexivity. Qed.

Example scenario_skip_returns_nothing :
  createContactsFromCSV shapeSchemas cityBatch "env" skip ∅ storeWithContact
  = (mkStore (contact storeWithContact)
             (<[3%positive := mkKey "city" "city" "env"]>
                (contactAttributeKey storeWithContact)),
     inr []).
Proof. vm_compute. reflexivity. Qed.

Example scenario_userId_collision :
  createContactsFromCSV shapeSchemas
    [mkRecord [("email", "b@x.com"); ("userId", "u1")]] "env" update ∅ storeWithUserId
  = (storeWithUserId,
     inl (ValidationError "Contact with userId u1 already exist for this environment")).
Proof. vm_compute. reflexivity. Qed.

(** * The claims *)

(** C7.  A record that lacks an e-mail value (the column is absent or holds
    the empty string) is dropped under every duplicate action: the store
    reached after its chain is the store reached before it, and its entry
    of [results] is [null], so that it contributes nothing to the returned
    sequence, which is made of the non-null entries. *)
Theorem C7_record_without_email_is_dropped
    schemas csvData env act attributeMap st st' out i (r : CsvRecord) :
  createContactsFromCSV schemas csvData env act attributeMap st = (st', inr out) →
  csvData !! i = Some r →
  r !! "email" = None ∨ r !! "email" = Some "" →
  ∃ s res results,
    importPrefix schemas csvData env act attributeMap i st = (s, inr res) ∧
    importPrefix schemas csvData env act attributeMap (S i) st = (s, inr (res ++ [None])) ∧
    importPrefix schemas csvData env act attributeMap (length csvData) st
      = (st', inr results) ∧
    results !! i = Some None ∧
    out = omap id results.
Proof.
  intros H Hi Hemail%truthy_None.
  destruct (import_at_record _ _ _ _ _ _ _ _ _ _ H Hi)
    as (akm & s1 & s2 & res & o & results & H1 & H2 & H3 & H4 & H5 & Hstep & _).
  assert (processRecord env act (emailToContactMap env csvData st) akm r s1
          = (s1, inr None)) as Hdrop by by apply processRecord_dropped.
  rewrite Hdrop in Hstep. injection Hstep as <- <-.
  exists s1, res, results. done.
Qed.

Lemma C7_witness :
  let run := createContactsFromCSV shapeSchemas scenarioBatch "env" update ∅ emptyStore in
  ∃ out, run.2 = inr out ∧
  ∃ s res results,
    importPrefix shapeSchemas scenarioBatch "env" update ∅ 1 emptyStore = (s, inr res) ∧
    importPrefix shapeSchemas scenarioBatch "env" update ∅ 2 emptyStore
      = (s, inr (res ++ [None])) ∧
    importPrefix shapeSchemas scenarioBatch "env" update ∅ (length scenarioBatch) emptyStore
      = (run.1, inr results) ∧
    results !! 1 = Some None ∧
    out = omap id results.
Proof.
  intros run. eexists. split; [vm_compute; reflexivity|].
  eapply (C7_record_without_email_is_dropped shapeSchemas scenarioBatch "env" update ∅
            emptyStore _ _ 1).
  - vm_compute. reflexivity.
  - reflexivity.
  - left. vm_compute. reflexivity.
Defined.

(** C6.  Under [skip], a record whose e-mail is mapped by the lookup table to
    an existing contact leaves that contact's row (environment and
    attribute rows) as it was before the call, the key rows that name its
    attributes are kept, the store after the record's chain is the store
    before it, and the record's entry of [results] is [null]: it is absent
    from the returned sequence. *)
Theorem C6_skip_leaves_existing_contact
    schemas csvData env attributeMap st st' out i (r : CsvRecord) e c :
  createContactsFromCSV schemas csvData env skip attributeMap st = (st', inr out) →
  csvData !! i = Some r →
  r !! "email" = Some e →
  emailToContactMap env csvData st !! e = Some c →
  is_Some (contact st !! existing_id c) ∧
  contact st' !! existing_id c = contact st !! existing_id c ∧
  contactAttributeKey st ⊆ contactAttributeKey st' ∧
  ∃ s res results,
    importPrefix schemas csvData env skip attributeMap i st = (s, inr res) ∧
    importPrefix schemas csvData env skip attributeMap (S i) st = (s, inr (res ++ [None])) ∧
    importPrefix schemas csvData env skip attributeMap (length csvData) st
      = (st', inr results) ∧
    results !! i = Some None ∧
    out = omap id results.
Proof.
  intros H Hi Hemail Hc.
  destruct (emailToContactMap_lookup _ _ _ _ _ Hc) as (row & _ & _ & Hrow & _).
  destruct (import_success _ _ _ _ _ _ _ _ H)
    as (s0 & akm0 & results0 & _ & _ & Hrec & _ & _ & Hm & _).
  destruct (import_success_keys _ _ _ _ _ _ _ _ H) as (s0' & akm' & _ & Hrec' & _ & Hk).
  apply records_skip_subseteq in Hm. rewrite (rec_contact _ _ _ _ _ Hrec) in Hm.
  split_and!.
  - eauto.
  - rewrite Hrow. by eapply lookup_weaken.
  - rewrite Hk. apply Hrec'.
  - destruct (import_at_record _ _ _ _ _ _ _ _ _ _ H Hi)
      as (akm & s1 & s2 & res & o & results & H1 & H2 & H3 & H4 & H5 & Hstep & _).
    assert (processRecord env skip (emailToContactMap env csvData st) akm r s1
            = (s1, inr None)) as Hnone.
    { destruct (truthy (r !! "email")) as [e'|] eqn:He.
      - pose proof He as [He' _]%truthy_Some. rewrite Hemail in He'.
        injection He' as ->. by eapply processRecord_skip.
      - by apply processRecord_dropped. }
    rewrite Hnone in Hstep. simplify_eq. exists s2, res, results. done.
Qed.

Lemma C6_witness :
  let st' := (createContactsFromCSV shapeSchemas cityBatch "env" skip ∅ storeWithContact).1 in
  is_Some (contact storeWithContact !! 1%positive) ∧
  contact st' !! 1%positive = contact storeWithContact !! 1%positive ∧
  contactAttributeKey storeWithContact ⊆ contactAttributeKey st' ∧
  ∃ s res results,
    importPrefix shapeSchemas cityBatch "env" skip ∅ 0 storeWithContact = (s, inr res) ∧
    importPrefix shapeSchemas cityBatch "env" skip ∅ 1 storeWithContact
      = (s, inr (res ++ [None])) ∧
    importPrefix shapeSchemas cityBatch "env" skip ∅ (length cityBatch) storeWithContact
      = (st', inr results) ∧
    results !! 0 = Some None ∧
    [] = omap id results.
Proof.
  intros st'.
  eapply (C6_skip_leaves_existing_contact shapeSchemas cityBatch "env" ∅ storeWithContact
            st' [] 0 _ "a@x.com" existingContact1).
  - vm_compute. reflexivity.
  - reflexivity.
  - vm_compute. reflexivity.
  - vm_compute. reflexivity.
Defined.







(** A contact returned by a record's chain is the row just written. *)
Lemma processRecord_returns_written env act e2c akm (record : CsvRecord) s s' tc :
  processRecord env act e2c akm record s = (s', inr (Some tc)) →
  ∃ row, contact s' !! tc_id tc = Some row ∧ tc = toTContact s' (tc_id tc) row.
Proof.
  assert (Hupd : ∀ id write s s' tc,
    contactUpdate id write s = (s', inr tc) →
    ∃ row, contact s' !! tc_id tc = Some row ∧ tc = toTContact s' (tc_id tc) row).
  { intros id write s0 s0' tc0. unfold contactUpdate.
    destruct (contact s0 !! id); [|done]. destruct (write _); [done|].
    intros [= <- <-]. simpl. rewrite lookup_insert_eq. eauto. }
  unfold processRecord. destruct (truthy _) as [e|]; [|done].
  destruct (e2c !! e) as [c|].
  - destruct act; [done| |].
    + intros H. apply bind_inr in H as (s1 & u & Hu & H). unfold ret in H.
      simplify_eq. eauto.
    + intros H. apply bind_inr in H as (sd & [] & _ & H).
      apply bind_inr in H as (s1 & u & Hu & H). unfold ret in H.
      simplify_eq. eauto.
  - intros H. apply bind_inr in H as (s1 & u & Hu & H). unfold ret in H. simplify_eq.
    unfold contactCreate in Hu. destruct (nestedCreate _ _); [done|].
    injection Hu as <- <-. simpl. rewrite lookup_insert_eq. eauto.
Qed.

Lemma Forall2_written_length {A B} (P : A → Prop) `{∀ x, Decision (P x)}
    (l : list A) (results : list (option B)) :
  Forall2 (λ r o, is_Some o ↔ P r) l results →
  length (omap id results) = length (filter P l).
Proof.
  induction 1 as [|r o l results Hiff _ IH]; [done|].
  rewrite filter_cons. destruct o as [b|]; simpl.
  - rewrite decide_True by (apply Hiff; eauto). simpl. by f_equal.
  - rewrite decide_False; [done|]. intros [??]%Hiff. done.
Qed.

(** C8.  On success the returned sequence is the sequence of non-null
    entries of [results], which has one entry per record, in order.  The
    entry of a record is non-null exactly when its [create], [update] or
    [overwrite] branch ran ([writesContact]); it is null for a record that
    has no e-mail or is skipped.  So the returned sequence has one element
    per record whose branch wrote a contact, and that element is the
    contact row as it stands in the store right after the record's
    chain. *)
Theorem C8_returned_sequence schemas csvData env act attributeMap st st' out :
  createContactsFromCSV schemas csvData env act attributeMap st = (st', inr out) →
  let writes := λ r, writesContact act (emailToContactMap env csvData st) r = true in
  ∃ results,
    importPrefix schemas csvData env act attributeMap (length csvData) st
      = (st', inr results) ∧
    out = omap id results ∧
    Forall2 (λ r o, is_Some o ↔ writes r) csvData results ∧
    length out = length (filter writes csvData) ∧
    ∀ i r, csvData !! i = Some r →
      (¬ writes r → results !! i = Some None) ∧
      (writes r →
       ∃ s2 res tc row,
         importPrefix schemas csvData env act attributeMap (S i) st
           = (s2, inr (res ++ [Some tc])) ∧
         results !! i = Some (Some tc) ∧
         contact s2 !! tc_id tc = Some row ∧
         tc = toTContact s2 (tc_id tc) row).
Proof.
  intros H writes.
  destruct (import_success _ _ _ _ _ _ _ _ H)
    as (s0 & akm & results & Hv & Hp & Hrec & Hr0 & _ & Hm & ->).
  destruct (records_total env act csvData _ akm csvData s0 Hr0)
    as (sF & resF & Hm' & _ & _ & _ & Hall); [done|].
  assert (resF = results) as -> by (rewrite Hm in Hm'; by simplify_eq).
  exists results. split_and!.
  - eapply importPrefix_run; [done..|]. simpl. by rewrite take_ge.
  - done.
  - done.
  - by apply Forall2_written_length.
  - intros i r Hi.
    destruct (import_at_record _ _ _ _ _ _ _ _ _ _ H Hi)
      as (akm' & s1 & s2 & res & o & results' & _ & H2 & H3 & H4 & _ & Hstep & _).
    assert (results' = results) as ->.
    { erewrite importPrefix_run in H3; [|done..|by rewrite take_ge]. by simplify_eq. }
    destruct (Forall2_lookup_l _ _ _ _ _ Hall Hi) as (o' & Ho' & Hiff).
    rewrite H4 in Ho'. injection Ho' as <-. split.
    + intros Hn. destruct o as [tc|]; [|done]. destruct Hn. apply Hiff. eauto.
    + intros [tc ->]%Hiff.
      destruct (processRecord_returns_written _ _ _ _ _ _ _ _ Hstep) as (row & ? & ?).
      exists s2, res, tc, row. done.
Qed.

Lemma C8_witness :
  let run := createContactsFromCSV shapeSchemas scenarioBatch "env" update ∅ emptyStore in
  let writes := λ r,
    writesContact update (emailToContactMap "env" scenarioBatch emptyStore) r = true in
  ∃ out, run.2 = inr out ∧
  ∃ results,
    importPrefix shapeSchemas scenarioBatch "env" update ∅ (length scenarioBatch) emptyStore
      = (run.1, inr results) ∧
    out = omap id results ∧
    Forall2 (λ r o, is_Some o ↔ writes r) scenarioBatch results ∧
    length out = length (filter writes scenarioBatch) ∧
    ∀ i r, scenarioBatch !! i = Some r →
      (¬ writes r → results !! i = Some None) ∧
      (writes r →
       ∃ s2 res tc row,
         importPrefix shapeSchemas scenarioBatch "env" update ∅ (S i) emptyStore
           = (s2, inr (res ++ [Some tc])) ∧
         results !! i = Some (Some tc) ∧
         contact s2 !! tc_id tc = Some row ∧
         tc = toTContact s2 (tc_id tc) row).
Proof.
  intros run writes. eexists. split; [vm_compute; reflexivity|].
  apply (C8_returned_sequence shapeSchemas scenarioBatch "env" update ∅ emptyStore).
  vm_compute. reflexivity.
Defined.

(** C9.  Once it has passed validation, the [attributeMap] argument has no
    influence: two calls that differ only in their (valid) attribute maps
    yield the same final store and the same result from the same store.
    The key rows a successful call adds are named after the columns of the
    records ([key] and [name] are the column name), whatever the map. *)
Theorem C9_attributeMap_has_no_influence schemas csvData env act map1 map2 st :
  ZContactCSVAttributeMap schemas map1 = true →
  ZContactCSVAttributeMap schemas map2 = true →
  createContactsFromCSV schemas csvData env act map1 st
  = createContactsFromCSV schemas csvData env act map2 st ∧
  ∀ st' out, createContactsFromCSV schemas csvData env act map1 st = (st', inr out) →
    ∀ kid row, contactAttributeKey st' !! kid = Some row →
      contactAttributeKey st !! kid = Some row ∨
      ∃ k, k ∈ csvKeysOf csvData ∧ row = mkKey k k env.
Proof.
  intros H1 H2. split.
  - unfold createContactsFromCSV. by rewrite H1, H2.
  - intros st' out H kid row Hrow.
    destruct (import_success_keys _ _ _ _ _ _ _ _ H) as (s0 & akm & _ & Hrec & _ & Hk).
    rewrite Hk in Hrow.
    destruct (rec_new _ _ _ _ _ Hrec _ _ Hrow) as [?|(_ & k & ? & _ & ?)]; eauto.
Qed.

Lemma C9_witness :
  createContactsFromCSV shapeSchemas scenarioBatch "env" update ∅ emptyStore
  = createContactsFromCSV shapeSchemas scenarioBatch "env" update
      {["plan" := "tier"]} emptyStore ∧
  ∀ st' out,
    createContactsFromCSV shapeSchemas scenarioBatch "env" update ∅ emptyStore
      = (st', inr out) →
    ∀ kid row, contactAttributeKey st' !! kid = Some row →
      contactAttributeKey emptyStore !! kid = Some row ∨
      ∃ k, k ∈ csvKeysOf scenarioBatch ∧ row = mkKey k k "env".
Proof.
  apply (C9_attributeMap_has_no_influence shapeSchemas scenarioBatch "env" update
           ∅ {["plan" := "tier"]} emptyStore); reflexivity.
Defined.

(** C10.  A column that appears only in records without an e-mail value
    still gets its key row: after a successful call the environment has a
    key row for it, and when it had none before, the call created a row
    whose [key] and [name] are the column name.  The records that carry
    the column are nevertheless dropped: their entries of [results] are
    [null]. *)
Theorem C10_dropped_records_still_create_keys
    schemas csvData env act attributeMap st st' out k :
  createContactsFromCSV schemas csvData env act attributeMap st = (st', inr out) →
  k ∈ csvKeysOf csvData →
  (∀ r : CsvRecord, r ∈ csvData → is_Some (r !! k) →
     r !! "email" = None ∨ r !! "email" = Some "") →
  hasKey (contactAttributeKey st') k env ∧
  (¬ hasKey (contactAttributeKey st) k env →
   ∃ kid, contactAttributeKey st !! kid = None ∧
          contactAttributeKey st' !! kid = Some (mkKey k k env)) ∧
  ∀ i (r : CsvRecord), csvData !! i = Some r → is_Some (r !! k) →
    ∃ results,
      importPrefix schemas csvData env act attributeMap (length csvData) st
        = (st', inr results) ∧
      results !! i = Some None ∧ out = omap id results.
Proof.
  intros H Hk Honly.
  destruct (import_creates_keys _ _ _ _ _ _ _ _ _ H Hk) as [Hhas Hnew].
  split_and!; [done..|].
  intros i r Hi Hrk.
  destruct (import_dropped_record _ _ _ _ _ _ _ _ _ _ H Hi)
    as (s & res & results & _ & _ & ? & ? & ?).
  - apply Honly; [by eapply list_elem_of_lookup_2|done].
  - by exists results.
Qed.

Lemma C10_witness :
  let run := createContactsFromCSV shapeSchemas tierBatch "env" update ∅ emptyStore in
  ∃ out, run.2 = inr out ∧
  hasKey (contactAttributeKey run.1) "tier" "env" ∧
  (¬ hasKey (contactAttributeKey emptyStore) "tier" "env" →
   ∃ kid, contactAttributeKey emptyStore !! kid = None ∧
          contactAttributeKey run.1 !! kid = Some (mkKey "tier" "tier" "env")) ∧
  ∀ i (r : CsvRecord), tierBatch !! i = Some r → is_Some (r !! "tier") →
    ∃ results,
      importPrefix shapeSchemas tierBatch "env" update ∅ (length tierBatch) emptyStore
        = (run.1, inr results) ∧
      results !! i = Some None ∧ out = omap id results.
Proof.
  intros run. eexists. split; [vm_compute; reflexivity|].
  apply (C10_dropped_records_still_create_keys shapeSchemas tierBatch "env" update ∅
           emptyStore).
  - vm_compute. reflexivity.
  - apply elem_of_csvKeysOf. exists (mkRecord [("userId", "u2"); ("tier", "gold")]).
    split; [right; left|]. vm_compute. eauto.
  - intros r Hr Htier. left.
    apply elem_of_cons in Hr as [->|Hr].
    + vm_compute in Htier. by destruct Htier.
    + apply list_elem_of_singleton in Hr as ->. vm_compute. reflexivity.
Defined.




(** C2 (as amended).  When some record carries a non-empty [userId] value
    that an attribute row of key [userId] of the environment already
    holds, the call ends with a [ValidationError] and the store is the one
    it started from: no contact row, no attribute row and no key row is
    written, the check coming before the key reconciliation.  For inputs
    that pass validation the error is the one of the userId check, and it
    names a value of the batch that the environment already holds. *)
Theorem C2_userId_collision_rejects_batch
    schemas csvData env act attributeMap st (r : CsvRecord) u :
  r ∈ csvData →
  r !! "userId" = Some u → u ≠ "" →
  userIdExists st env u →
  ∃ msg,
    createContactsFromCSV schemas csvData env act attributeMap st
    = (st, inl (ValidationError msg)) ∧
    (validInputs schemas csvData env attributeMap = true →
     ∃ u', msg = userIdMessage u' ∧
           u' ∈ csvUserIdsOf csvData ∧ userIdExists st env u').
Proof.
  intros Hr Hu Hne Hex.
  destruct (import_cases schemas csvData env act attributeMap st)
    as [[Hv H]|[(_ & u' & H & ? & ?)|(_ & st' & out & H)]].
  - eexists. split; [done|]. by rewrite Hv.
  - eexists. split; [done|]. eauto.
  - exfalso.
    destruct (import_success _ _ _ _ _ _ _ _ H) as (_ & _ & _ & _ & _ & _ & _ & Hfree & _).
    apply (Hfree u); [|done].
    apply elem_of_arrayFromSet, list_elem_of_omap. exists r. split; [done|].
    by apply truthy_Some.
Qed.

Lemma C2_witness :
  ∃ msg,
    createContactsFromCSV shapeSchemas
      [mkRecord [("email", "b@x.com"); ("userId", "u1")]] "env" update ∅
      storeWithUserId
    = (storeWithUserId, inl (ValidationError msg)) ∧
    (validInputs shapeSchemas [mkRecord [("email", "b@x.com"); ("userId", "u1")]]
       "env" ∅ = true →
     ∃ u', msg = userIdMessage u' ∧
           u' ∈ csvUserIdsOf [mkRecord [("email", "b@x.com"); ("userId", "u1")]] ∧
           userIdExists storeWithUserId "env" u').
Proof.
  apply (C2_userId_collision_rejects_batch shapeSchemas _ "env" update ∅ storeWithUserId
           (mkRecord [("email", "b@x.com"); ("userId", "u1")]) "u1").
  - left.
  - vm_compute. reflexivity.
  - discriminate.
  - eexists 1%positive, (mkContact "env" _), 1%positive, (mkKey "userId" "userId" "env").
    split_and!; vm_compute; reflexivity.
Defined.

(** C2 as stated fails for the empty [userId]: the value of the record's
    [userId] column is already a [userId] attribute of the environment, yet
    the call succeeds and creates a second contact with it. *)
Lemma C2_counterexample_empty_userId :
  let r := mkRecord [("email", "b@x.com"); ("userId", "")] in
  r !! "userId" = Some "" ∧
  userIdExists storeWithEmptyUserId "env" "" ∧
  ∃ st' out,
    createContactsFromCSV shapeSchemas [r] "env" skip ∅ storeWithEmptyUserId
      = (st', inr out) ∧
    length out = 1 ∧
    contact storeWithEmptyUserId !! 2%positive = None ∧
    is_Some (contact st' !! 2%positive) ∧
    carriesUserId st' "env" 2 "".
Proof.
  intros r. split_and!.
  - vm_compute. reflexivity.
  - eexists 1%positive, (mkContact "env" _), 1%positive, (mkKey "userId" "userId" "env").
    split_and!; vm_compute; reflexivity.
  - eexists _, _. split_and!.
    + vm_compute. reflexivity.
    + reflexivity.
    + vm_compute. reflexivity.
    + vm_compute. eauto.
    + eexists (mkContact "env" _), 1%positive, (mkKey "userId" "userId" "env").
      split_and!; vm_compute; reflexivity.
Qed.

(** ** The userId invariant along a run *)

(** After a record's chain a contact carries a userId either because it
    carried it before, or because it is the contact just written and the
    value is the record's. *)
Lemma processRecord_carries env act e2c akm (r : CsvRecord) s s1 o cid u :
  Resolves env akm (contactAttributeKey s) r →
  (∀ e c, e2c !! e = Some c → is_Some (contact s !! existing_id c)) →
  processRecord env act e2c akm r s = (s1, inr o) →
  carriesUserId s1 env cid u →
  carriesUserId s env cid u ∨
  (is_Some (truthy (r !! "email")) ∧ r !! "userId" = Some u ∧
   ∃ tc, o = Some tc ∧ tc_id tc = cid).
Proof.
  intros Hres Hex Hp (c' & kid & row & Hc' & Henv & Hattr & Hrow & Hkey & Hkenv).
  assert (Hrec : ∀ attrs, rowsOf akm r attrs → attrs !! kid = Some u →
            contactAttributeKey s !! kid = Some row → r !! "userId" = Some u).
  { intros attrs Hrows (k & Hk & Hid)%Hrows Hrow'.
    destruct (res_sound _ _ _ _ Hres _ _ Hid) as (row' & ? & ? & _).
    simplify_eq. by rewrite <-Hkey. }
  assert (Hold : ∀ id c0 (attrs : gmap positive string),
            s1 = mkStore (<[id := c0]> (contact s)) (contactAttributeKey s) →
            cid ≠ id → carriesUserId s env cid u).
  { intros id c0 attrs -> Hne. simpl in *. rewrite lookup_insert_ne in Hc' by done.
    exists c', kid, row. done. }
  destruct (truthy (r !! "email")) as [e|] eqn:He.
  - destruct (e2c !! e) as [c|] eqn:Hc.
    + destruct (Hex _ _ Hc) as [c0 Hc0]. destruct act.
      * rewrite (processRecord_skip env e2c akm r s e c He Hc) in Hp.
        simplify_eq. left. exists c', kid, row. done.
      * destruct (processRecord_update env e2c akm r s e c c0 He Hc Hc0 Hres)
          as (attrs & Hp' & Hchar).
        simpl in Hp'. rewrite Hp' in Hp. injection Hp as <- <-.
        destruct (decide (cid = existing_id c)) as [->|Hne]; [|left; by eapply Hold].
        simpl in *. rewrite lookup_insert_eq in Hc'. injection Hc' as <-. simpl in *.
        apply Hchar in Hattr as [(k & Hk & Hid)|[_ Hattr]].
        -- right. split_and!; [eauto| |eauto].
           destruct (res_sound _ _ _ _ Hres _ _ Hid) as (row' & ? & ? & _).
           simplify_eq. by rewrite <-Hkey.
        -- left. exists c0, kid, row. done.
      * destruct (processRecord_overwrite env e2c akm r s e c c0 He Hc Hc0 Hres)
          as (attrs & Hp' & Hrows).
        simpl in Hp'. rewrite Hp' in Hp. injection Hp as <- <-.
        destruct (decide (cid = existing_id c)) as [->|Hne]; [|left; by eapply Hold].
        simpl in *. rewrite lookup_insert_eq in Hc'. injection Hc' as <-. simpl in *.
        right. split_and!; [eauto|by eapply Hrec|eauto].
    + destruct (processRecord_create env e2c akm act r s e He Hc Hres)
        as (attrs & Hp' & Hrows).
      simpl in Hp'. rewrite Hp' in Hp. injection Hp as <- <-.
      destruct (decide (cid = fresh (dom (contact s)))) as [->|Hne];
        [|left; by eapply Hold].
      simpl in *. rewrite lookup_insert_eq in Hc'. injection Hc' as <-. simpl in *.
      right. split_and!; [eauto|by eapply Hrec|eauto].
  - rewrite processRecord_dropped in Hp by done. simplify_eq.
    left. exists c', kid, row. done.
Qed.

Lemma incomingUserIds_cons (r : CsvRecord) l :
  incomingUserIds (r :: l) =
  match truthy (r !! "email"), r !! "userId" with
  | Some _, Some u => u :: incomingUserIds l
  | _, _ => incomingUserIds l
  end.
Proof.
  unfold incomingUserIds. simpl.
  destruct (truthy (r !! "email")); [|done]. by destruct (r !! "userId").
Qed.

Lemma elem_of_incomingUserIds csvData u :
  u ∈ incomingUserIds csvData ↔
  ∃ r : CsvRecord, r ∈ csvData ∧ is_Some (truthy (r !! "email")) ∧ r !! "userId" = Some u.
Proof.
  unfold incomingUserIds. rewrite list_elem_of_omap. split.
  - intros (r & Hr & H). exists r. destruct (truthy (r !! "email")); [eauto|done].
  - intros (r & Hr & [e He] & Hu). exists r. by rewrite He.
Qed.

(** The records preserve the invariant when their userId cells are
    pairwise distinct and no contact carries one of them yet. *)
Lemma records_userIdUnique env act csvData e2c akm (l : list CsvRecord) s s' results :
  Running env csvData e2c akm s → l ⊆ csvData →
  mapM (processRecord env act e2c akm) l s = (s', inr results) →
  userIdUnique s env →
  NoDup (incomingUserIds l) →
  (∀ u cid, u ∈ incomingUserIds l → ¬ carriesUserId s env cid u) →
  userIdUnique s' env.
Proof.
  revert s results. induction l as [|r l IH]; intros s results Hrun Hsub Hm Hu Hnd Hfree.
  - simpl in Hm. unfold ret in Hm. by simplify_eq.
  - simpl in Hm. apply bind_inr in Hm as (s1 & o & Hstep & Hm).
    apply bind_inr in Hm as (s2 & ys & Hrest & Hm). unfold ret in Hm. simplify_eq.
    assert (r ∈ csvData) as Hr by (apply Hsub; left).
    assert (Resolves env akm (contactAttributeKey s) r) as Hres
      by by eapply Running_Resolves.
    destruct (processRecord_Running env act csvData e2c akm r s Hrun Hr)
      as (s1' & o' & Hstep' & Hrun1 & _).
    assert (s1' = s1 ∧ o' = o) as [-> ->] by (rewrite Hstep in Hstep'; by simplify_eq).
    pose proof (λ cid u, processRecord_carries env act e2c akm r s s1 o cid u Hres
                           (run_existing _ _ _ _ _ Hrun) Hstep) as Hcar.
    rewrite incomingUserIds_cons in Hnd, Hfree.
    eapply (IH s1); [done|intros x Hx; apply Hsub; by right|done| | |].
    + intros c1 c2 u [H1|(He1 & Hu1 & tc1 & Ho1 & Hid1)]%Hcar
                     [H2|(He2 & Hu2 & tc2 & Ho2 & Hid2)]%Hcar.
      * by eapply Hu.
      * destruct He2 as [e He2]. rewrite He2, Hu2 in Hfree.
        destruct (Hfree u c1); [left|done].
      * destruct He1 as [e He1]. rewrite He1, Hu1 in Hfree.
        destruct (Hfree u c2); [left|done].
      * congruence.
    + destruct (truthy (r !! "email")); [|done].
      destruct (r !! "userId"); [|done]. by apply NoDup_cons in Hnd as [_ ?].
    + intros u cid Hin [H|(He & Hu' & _)]%Hcar.
      * apply (Hfree u cid); [|done].
        destruct (truthy (r !! "email")); [|done].
        destruct (r !! "userId"); [by right|done].
      * destruct He as [e He]. rewrite He, Hu' in Hnd.
        apply NoDup_cons in Hnd as [Hnotin _]. done.
Qed.

(** The reconciliation adds no carried userId when every attribute row
    refers to a key row. *)
Lemma Reconciled_carries env csvData st s0 akm cid u :
  Reconciled env csvData st s0 akm → attributeKeysExist st →
  carriesUserId s0 env cid u → carriesUserId st env cid u.
Proof.
  intros Hrec Hfk (c & kid & row & Hc & Henv & Hattr & Hrow & Hkey & Hkenv).
  rewrite (rec_contact _ _ _ _ _ Hrec) in Hc.
  destruct (Hfk cid c kid Hc) as [row' Hrow']; [eauto|].
  assert (row' = row) as ->.
  { eapply lookup_weaken in Hrow'; [|apply (rec_subseteq _ _ _ _ _ Hrec)]. congruence. }
  exists c, kid, row. done.
Qed.

(** The userId check only looks at the store: a batch in which two records
    with distinct e-mails carry the same [userId] passes it, and both
    contacts are created with that value.  The call returns successfully
    from a store that satisfies the uniqueness invariant and leaves a store
    that violates it. *)
Lemma C1_counterexample_duplicate_userId_in_batch :
  let batch := [mkRecord [("email", "a@x.com"); ("userId", "u1")];
                mkRecord [("email", "b@x.com"); ("userId", "u1")]] in
  userIdUnique emptyStore "env" ∧
  ∃ st' out,
    createContactsFromCSV shapeSchemas batch "env" skip ∅ emptyStore = (st', inr out) ∧
    length out = 2 ∧
    carriesUserId st' "env" 1 "u1" ∧
    carriesUserId st' "env" 2 "u1" ∧
    ¬ userIdUnique st' "env".
Proof.
  intros batch. split.
  - intros c1 c2 u (c & ? & ? & H & _). simpl in H. by rewrite lookup_empty in H.
  - eexists _, _. split; [vm_compute; reflexivity|].
    assert (∀ cid, cid = 1%positive ∨ cid = 2%positive →
              carriesUserId
                (createContactsFromCSV shapeSchemas batch "env" skip ∅ emptyStore).1
                "env" cid "u1") as Hc.
    { intros cid [-> | ->].
      - eexists (mkContact "env" _), 1%positive, (mkKey "userId" "userId" "env").
        split_and!; vm_compute; reflexivity.
      - eexists (mkContact "env" _), 1%positive, (mkKey "userId" "userId" "env").
        split_and!; vm_compute; reflexivity. }
    split_and!; [reflexivity|apply Hc; auto|apply Hc; auto|].
    intros Hu. specialize (Hu 1%positive 2%positive "u1" (Hc _ (or_introl eq_refl))
                              (Hc _ (or_intror eq_refl))).
    discriminate.
Qed.

(** C1 (as amended).  From a store in which no two contacts of the
    environment carry the same [userId] value (and whose attribute rows all
    refer to existing key rows), every successful call leaves a store with
    the same property, provided the [userId] cells of the records that have
    an e-mail are non-empty and pairwise distinct.  The records of a batch
    are never compared with each other, so this proviso is not checked by
    the call. *)
Theorem C1_userIdUnique_preserved schemas csvData env act attributeMap st st' out :
  userIdUnique st env →
  attributeKeysExist st →
  createContactsFromCSV schemas csvData env act attributeMap st = (st', inr out) →
  NoDup (incomingUserIds csvData) →
  "" ∉ incomingUserIds csvData →
  userIdUnique st' env.
Proof.
  intros Hu Hfk H Hnd Hne.
  destruct (import_success _ _ _ _ _ _ _ _ H)
    as (s0 & akm & results & _ & _ & Hrec & Hrun & Hfree & Hm & _).
  eapply records_userIdUnique; [done|done|done| |done|].
  - intros c1 c2 u H1 H2.
    eapply Hu; by eapply Reconciled_carries.
  - intros u cid Hin Hcar. pose proof Hin as (r & Hr & [e He] & Hru)%elem_of_incomingUserIds.
    apply (Hfree u).
    + apply elem_of_arrayFromSet, list_elem_of_omap. exists r. split; [done|].
      apply truthy_Some. split; [done|]. by intros ->.
    + eapply Reconciled_carries in Hcar as (c & kid & row & ? & ? & ? & ? & ? & ?);
        [|done..].
      by exists cid, c, kid, row.
Qed.

Lemma C1_witness :
  userIdUnique
    (createContactsFromCSV shapeSchemas distinctUserIdBatch "env" skip ∅ emptyStore).1
    "env".
Proof.
  eapply (C1_userIdUnique_preserved shapeSchemas distinctUserIdBatch "env" skip ∅
            emptyStore _ _).
  - intros c1 c2 u (c & ? & ? & H & _). simpl in H. by rewrite lookup_empty in H.
  - intros cid c kid H. simpl in H. by rewrite lookup_empty in H.
  - vm_compute. reflexivity.
  - apply (bool_decide_eq_true_1 _). vm_compute. reflexivity.
  - apply (bool_decide_eq_true_1 _). vm_compute. reflexivity.
Defined.

(** * Further properties *)

(** ** [handleActionsChange] and [handleValuesChange] *)

Import LogicEditor.


Lemma spliceInsert_delete {A} (i : nat) (x : A) (l : list A) :
  (i ≤ length l)%nat → delete i (spliceInsert i x l) = l.
Proof.
  intros Hi. unfold spliceInsert.
  assert (length (take i l) = i) as Hlen by (rewrite length_take; lia).
  pose proof (delete_middle (take i l) (drop i l) x) as Hdel.
  rewrite Hlen in Hdel. rewrite Hdel. apply take_drop.
Qed.

Lemma spliceInsert_NoDup {A} (i : nat) (x : A) (l : list A) :
  NoDup l → x ∉ l → NoDup (spliceInsert i x l).
Proof.
  intros Hnd Hx. unfold spliceInsert.
  rewrite <-(take_drop i l) in Hnd, Hx.
  apply NoDup_app in Hnd as (H1 & H2 & H3).
  apply NoDup_app. split_and!; [done| |].
  - intros y Hy [->|Hin]%elem_of_cons; [|by eapply H2].
    apply Hx, elem_of_app. by left.
  - apply NoDup_cons. split; [|done]. intros Hin. apply Hx, elem_of_app. by right.
Qed.

(** X1.  [handleActionsChange] throws a [TypeError] exactly when
    [question.logic] is missing or has no item at [logicIdx], whatever the
    operation; it returns without calling [updateQuestion] exactly when
    the item exists and the operation is [update] without an action; in
    every other case it calls [updateQuestion] with the given
    [questionIdx]. *)
Theorem handleActionsChange_outcomes {C} (logic : option (list (LogicItem C)))
    logicIdx questionIdx newId op actionIdx action :
  let outcome :=
    handleActionsChange logic logicIdx questionIdx newId op actionIdx action in
  (outcome = TypeError ↔ default [] logic !! logicIdx = None) ∧
  (outcome = NoCall ↔
     is_Some (default [] logic !! logicIdx) ∧ op = opUpdate ∧ action = None) ∧
  ((∃ logic', outcome = UpdateQuestion questionIdx logic') ↔
     is_Some (default [] logic !! logicIdx) ∧ ¬ (op = opUpdate ∧ action = None)).
Proof.
  unfold handleActionsChange.
  destruct (default [] logic !! logicIdx) as [item|] eqn:E.
  - destruct op, action; split_and!; split;
      try (intros [? ?]); try (intros (? & ? & ?)); try done; try (by eauto);
      try (split; [eauto|by intros [? ?]]); try (by destruct H0).
  - split_and!; split; try done; try (by intros [[? ?] ?]); by intros [? ?].
Qed.

(** X2.  A call of [updateQuestion] made by [handleActionsChange] carries a
    logic array of the same length in which every item other than the one
    at [logicIdx] is as it was, and the item at [logicIdx] keeps its id and
    its conditions: only its actions can differ. *)
Theorem handleActionsChange_frame {C} (logic : option (list (LogicItem C)))
    logicIdx questionIdx newId op actionIdx action q logic' :
  handleActionsChange logic logicIdx questionIdx newId op actionIdx action
  = UpdateQuestion q logic' →
  q = questionIdx ∧
  length logic' = length (default [] logic) ∧
  (∀ j, j ≠ logicIdx → logic' !! j = default [] logic !! j) ∧
  ∃ item item',
    default [] logic !! logicIdx = Some item ∧ logic' !! logicIdx = Some item' ∧
    itemId item' = itemId item ∧ conditions item' = conditions item.
Proof.
  unfold handleActionsChange.
  destruct (default [] logic !! logicIdx) as [item|] eqn:E; [|done].
  assert (logicIdx < length (default [] logic))%nat as Hlt by by eapply lookup_lt_Some.
  intros H.
  assert (∃ acts, q = questionIdx ∧
            logic' = <[logicIdx := mkLogicItem (itemId item) (conditions item) acts]>
                       (default [] logic)) as (acts & -> & ->).
  { destruct op; try destruct action; simplify_eq; eauto. }
  split_and!; [done|by rewrite length_insert| |].
  - intros j Hj. by rewrite list_lookup_insert_ne.
  - exists item, (mkLogicItem (itemId item) (conditions item) acts).
    split_and!; [done| |done..]. by apply list_lookup_insert_eq.
Qed.

Lemma handleActionsChange_frame_witness :
  let logic := Some [mkLogicItem "l1" tt [Some (newJumpAction "a1")];
                     mkLogicItem "l2" tt [Some (newJumpAction "a2")]] in
  let logic' := [mkLogicItem "l1" tt [Some (newJumpAction "a1")];
                 mkLogicItem "l2" tt [Some (newJumpAction "a2");
                                      Some (newJumpAction "a3")]] in
  7 = 7 ∧
  length logic' = length (default [] logic) ∧
  (∀ j, j ≠ 1 → logic' !! j = default [] logic !! j) ∧
  ∃ item item',
    default [] logic !! 1 = Some item ∧ logic' !! 1 = Some item' ∧
    itemId item' = itemId item ∧ conditions item' = conditions item.
Proof.
  intros logic logic'.
  apply (handleActionsChange_frame logic 1 7 "a3" opAddBelow 0 None 7 logic').
  reflexivity.
Defined.

(** X3.  Adding an action below a row, or duplicating the row, and then
    removing the row below it gives back the logic the component started
    from. *)
Theorem add_then_delete_restores {C}
    (logic : list (LogicItem C)) logicIdx item q newId op actionIdx action q' newId' action' :
  logic !! logicIdx = Some item →
  (actionIdx < length (actions item))%nat →
  op = opAddBelow ∨ op = opDuplicate →
  ∃ logic1,
    handleActionsChange (Some logic) logicIdx q newId op actionIdx action
    = UpdateQuestion q logic1 ∧
    handleActionsChange (Some logic1) logicIdx q' newId' opDelete (S actionIdx) action'
    = UpdateQuestion q' logic.
Proof.
  intros Hitem Hlt Hop.
  assert (logicIdx < length logic)%nat as Hlen by by eapply lookup_lt_Some.
  assert (∃ x, handleActionsChange (Some logic) logicIdx q newId op actionIdx action
            = UpdateQuestion q
                (<[logicIdx := mkLogicItem (itemId item) (conditions item)
                     (spliceInsert (S actionIdx) x (actions item))]> logic))
    as (x & Hcall).
  { unfold handleActionsChange. simpl. rewrite Hitem.
    destruct Hop as [-> | ->]; eauto. }
  eexists. split; [exact Hcall|].
  unfold handleActionsChange. simpl. rewrite list_lookup_insert_eq by done. simpl.
  rewrite spliceInsert_delete by lia. rewrite list_insert_insert_eq.
  f_equal. destruct item. by apply list_insert_id.
Qed.

Lemma add_then_delete_restores_witness :
  let logic := [mkLogicItem "l1" tt [Some (newJumpAction "a1")]] in
  ∃ logic1,
    handleActionsChange (Some logic) 0 7 "a2" opDuplicate 0 None
    = UpdateQuestion 7 logic1 ∧
    handleActionsChange (Some logic1) 0 7 "a3" opDelete 1 None
    = UpdateQuestion 7 logic.
Proof.
  intros logic.
  apply (add_then_delete_restores logic 0 (mkLogicItem "l1" tt [Some (newJumpAction "a1")])
           7 "a2" opDuplicate 0 None 7 "a3" None).
  - reflexivity.
  - simpl. lia.
  - by right.
Defined.

Lemma actionIds_spliceInsert (i : nat) (x : option Action) (l : list (option Action)) :
  actionIds (spliceInsert i x l)
  = spliceInsert i (x ≫= (λ a : Action, a !! "id")) (actionIds l).
Proof.
  unfold actionIds, spliceInsert. by rewrite fmap_app, fmap_cons, fmap_take, fmap_drop.
Qed.

Lemma actionIds_delete (i : nat) (l : list (option Action)) :
  actionIds (delete i l) = delete i (actionIds l).
Proof. apply list_fmap_delete. Qed.

Lemma NoDup_delete {A} (i : nat) (l : list A) : NoDup l → NoDup (delete i l).
Proof.
  revert i. induction l as [|x l IH]; intros [|i] Hnd; simpl; [done|done| |].
  - by apply NoDup_cons in Hnd as [_ ?].
  - apply NoDup_cons in Hnd as [Hx Hnd]. apply NoDup_cons. split; [|by apply IH].
    intros Hin. apply Hx. by eapply list_elem_of_delete_inv.
Qed.

(** X4.  Removing, adding and duplicating keep the ids of the actions
    pairwise distinct: when no two actions of the item share their [id]
    field and the id returned by [createId()] is not the id of one of
    them, the same holds of the actions handed to [updateQuestion]. *)
Theorem action_ids_stay_distinct {C} (logic : list (LogicItem C))
    logicIdx item questionIdx newId op actionIdx action :
  logic !! logicIdx = Some item →
  NoDup (actionIds (actions item)) →
  Some (FString newId) ∉ actionIds (actions item) →
  op ≠ opUpdate →
  ∃ actions',
    actionsAfter
      (handleActionsChange (Some logic) logicIdx questionIdx newId op actionIdx action)
      logicIdx = Some actions' ∧
    NoDup (actionIds actions').
Proof.
  intros Hitem Hnd Hfresh Hop.
  assert (logicIdx < length logic)%nat as Hlen by by eapply lookup_lt_Some.
  unfold handleActionsChange. simpl. rewrite Hitem.
  destruct op; [| | |done]; simpl; rewrite list_lookup_insert_eq by done; simpl;
    eexists; (split; [reflexivity|]).
  - rewrite actionIds_delete. by apply NoDup_delete.
  - rewrite actionIds_spliceInsert. simpl. unfold newJumpAction.
    rewrite lookup_insert_eq. by apply spliceInsert_NoDup.
  - rewrite actionIds_spliceInsert. simpl. unfold withId.
    rewrite lookup_insert_eq. by apply spliceInsert_NoDup.
Qed.

Lemma action_ids_stay_distinct_witness :
  ∃ actions',
    actionsAfter
      (handleActionsChange
         (Some [mkLogicItem "l1" tt [Some (newJumpAction "a1"); Some (newJumpAction "a2")]])
         0 7 "a3" opDuplicate 0 None) 0 = Some actions' ∧
    NoDup (actionIds actions').
Proof.
  apply (action_ids_stay_distinct
           [mkLogicItem "l1" tt [Some (newJumpAction "a1"); Some (newJumpAction "a2")]]
           0 (mkLogicItem "l1" tt [Some (newJumpAction "a1"); Some (newJumpAction "a2")])).
  - reflexivity.
  - apply (bool_decide_eq_true_1 _). vm_compute. reflexivity.
  - apply (bool_decide_eq_true_1 _). vm_compute. reflexivity.
  - discriminate.
Defined.

(** X5.  [handleValuesChange] on a row that the item holds replaces that
    row by the merge of the row with [values]: a field named in [values]
    takes the value given there, every other field of the row (its [id]
    among them, when [values] has none) is kept, and the other rows, their
    number and their order are unchanged. *)
Theorem handleValuesChange_merges {C} (logic : list (LogicItem C))
    logicIdx item questionIdx newId actionIdx (a values : Action) :
  logic !! logicIdx = Some item →
  actions item !! actionIdx = Some (Some a) →
  ∃ actions' merged,
    actionsAfter
      (handleValuesChange (Some logic) (actions item) logicIdx questionIdx newId
                          actionIdx values) logicIdx = Some actions' ∧
    actions' = <[actionIdx := Some merged]> (actions item) ∧
    length actions' = length (actions item) ∧
    (∀ j, j ≠ actionIdx → actions' !! j = actions item !! j) ∧
    (∀ k v, values !! k = Some v → merged !! k = Some v) ∧
    (∀ k, values !! k = None → merged !! k = a !! k).
Proof.
  intros Hitem Ha.
  assert (logicIdx < length logic)%nat as Hlen by by eapply lookup_lt_Some.
  assert (actionIdx < length (actions item))%nat as Hlt by by eapply lookup_lt_Some.
  unfold handleValuesChange, handleActionsChange, arrayGet, arraySet. simpl.
  rewrite Hitem, Ha. simpl. rewrite decide_True by done.
  rewrite list_lookup_insert_eq by done. simpl.
  exists (<[actionIdx := Some (values ∪ a)]> (actions item)), (values ∪ a).
  split_and!; [done|done|by rewrite length_insert| | |].
  - intros j Hj. by rewrite list_lookup_insert_ne.
  - intros k v Hk. by apply lookup_union_Some_l.
  - intros k Hk. by apply lookup_union_r.
Qed.

Lemma handleValuesChange_merges_witness :
  ∃ actions' merged,
    actionsAfter
      (handleValuesChange
         (Some [mkLogicItem "l1" tt [Some (newJumpAction "a1")]])
         [Some (newJumpAction "a1")] 0 7 "x" 0 {["target" := FString "q2"]}) 0
      = Some actions' ∧
    actions' = <[0 := Some merged]> [Some (newJumpAction "a1")] ∧
    length actions' = length [Some (newJumpAction "a1")] ∧
    (∀ j, j ≠ 0 → actions' !! j = [Some (newJumpAction "a1")] !! j) ∧
    (∀ k v, ({["target" := FString "q2"]} : Action) !! k = Some v → merged !! k = Some v) ∧
    (∀ k, ({["target" := FString "q2"]} : Action) !! k = None →
          merged !! k = newJumpAction "a1" !! k).
Proof.
  apply (handleValuesChange_merges
           [mkLogicItem "l1" tt [Some (newJumpAction "a1")]] 0
           (mkLogicItem "l1" tt [Some (newJumpAction "a1")]) 7 "x" 0
           (newJumpAction "a1") {["target" := FString "q2"]}); reflexivity.
Defined.



(** ** [getContact] and [deleteContact] *)

Lemma validateInputs_single (b : bool) st :
  validateInputs [b] st
  = if b then (st, inr tt) else (st, inl (ValidationError "Validation failed")).
Proof. unfold validateInputs. simpl. by destruct b. Qed.

Lemma getContact_valid zid id st :
  zid id = true →
  getContact zid id st = (st, inr (selectContact st id <$> contact st !! id)).
Proof. intros Hz. unfold getContact, validateInputs. simpl. by rewrite Hz. Qed.

Lemma deleteContact_present zid id st c :
  zid id = true → contact st !! id = Some c →
  ∃ rv, deleteContact zid id st
        = (mkStore (delete id (contact st)) (contactAttributeKey st),
           inr (selectContact st id c, rv)) ∧
        rv_id rv = id ∧ rv_environmentId rv = environmentId c.
Proof.
  intros Hz Hc. unfold deleteContact, validateInputs. simpl. rewrite Hz. simpl.
  unfold bind, catchPrisma, contactDelete, ret. rewrite Hc. simpl. eauto.
Qed.

(** X7.  [deleteContact] on an id that no contact has fails and leaves the
    store as it is: with a [DatabaseError] when the id passes [ZId] (the
    Prisma error is translated by the [catch]), with a [ValidationError]
    when it does not. *)
Theorem deleteContact_missing zid id st :
  contact st !! id = None →
  ∃ e, deleteContact zid id st = (st, inl e) ∧
       (zid id = true → ∃ msg, e = DatabaseError msg) ∧
       (zid id = false → ∃ msg, e = ValidationError msg).
Proof.
  intros Hc. unfold deleteContact, validateInputs. simpl.
  destruct (zid id) eqn:Hz; simpl.
  - exists (DatabaseError "Record to delete does not exist").
    split; [|split; [eauto|done]].
    unfold bind, catchPrisma, contactDelete, ret. by rewrite Hc.
  - exists (ValidationError "Validation failed"). split; [done|]. split; [done|eauto].
Qed.

Lemma deleteContact_missing_witness :
  ∃ e, deleteContact (λ _, true) 5 storeWithContact = (storeWithContact, inl e) ∧
       ((λ _ : positive, true) 5%positive = true → ∃ msg, e = DatabaseError msg) ∧
       ((λ _ : positive, true) 5%positive = false → ∃ msg, e = ValidationError msg).
Proof.
  apply (deleteContact_missing (λ _, true) 5 storeWithContact).
  vm_compute. reflexivity.
Defined.

(** X8.  [deleteContact] on an existing contact removes that contact and
    nothing else, and returns it as [getContact] showed it just before;
    afterwards [getContact] finds nothing under that id and shows every
    other contact as before.  A second [deleteContact] of the same id
    fails. *)
Theorem deleteContact_getContact zid id st c :
  zid id = true → contact st !! id = Some c →
  ∃ st' rv,
    deleteContact zid id st = (st', inr (selectContact st id c, rv)) ∧
    getContact zid id st = (st, inr (Some (selectContact st id c))) ∧
    contact st' = delete id (contact st) ∧
    contactAttributeKey st' = contactAttributeKey st ∧
    getContact zid id st' = (st', inr None) ∧
    (∀ id', id' ≠ id → (getContact zid id' st').2 = (getContact zid id' st).2) ∧
    ∃ msg, deleteContact zid id st' = (st', inl (DatabaseError msg)).
Proof.
  intros Hz Hc.
  destruct (deleteContact_present zid id st c Hz Hc) as (rv & Hdel & _).
  eexists _, rv. split_and!; [exact Hdel| |done|done| | |].
  - by rewrite getContact_valid, Hc.
  - rewrite getContact_valid by done. simpl. by rewrite lookup_delete_eq.
  - intros id' Hne. unfold getContact, validateInputs. simpl.
    destruct (zid id'); [|done]. simpl. unfold bind, catchPrisma, read. simpl.
    by rewrite lookup_delete_ne.
  - destruct (deleteContact_missing zid id
                (mkStore (delete id (contact st)) (contactAttributeKey st)))
      as (e & He & Hdb & _); [apply lookup_delete_eq|].
    destruct (Hdb Hz) as [msg ->]. eauto.
Qed.

Lemma deleteContact_getContact_witness :
  ∃ c st' rv,
    deleteContact (λ _, true) 1 storeWithContact
      = (st', inr (selectContact storeWithContact 1 c, rv)) ∧
    getContact (λ _, true) 1 storeWithContact
      = (storeWithContact, inr (Some (selectContact storeWithContact 1 c))) ∧
    contact st' = delete 1%positive (contact storeWithContact) ∧
    contactAttributeKey st' = contactAttributeKey storeWithContact ∧
    getContact (λ _, true) 1 st' = (st', inr None) ∧
    (∀ id', id' ≠ 1%positive →
       (getContact (λ _, true) id' st').2 = (getContact (λ _, true) id' storeWithContact).2) ∧
    ∃ msg, deleteContact (λ _, true) 1 st' = (st', inl (DatabaseError msg)).
Proof.
  eexists. apply (deleteContact_getContact (λ _, true) 1 storeWithContact).
  - reflexivity.
  - vm_compute. reflexivity.
Defined.

(** X9.  Whatever its outcome, [deleteContact] adds and changes no row:
    the key table is untouched and every contact of the resulting store is
    a contact of the store it started from, unchanged.  Hence it keeps the
    uniqueness of userIds in every environment, the uniqueness of
    [(key, environmentId)] and the foreign key of the attribute rows. *)
Theorem deleteContact_keeps_invariants zid id st st' result :
  deleteContact zid id st = (st', result) →
  contactAttributeKey st' = contactAttributeKey st ∧
  contact st' ⊆ contact st ∧
  (∀ env, userIdUnique st env → userIdUnique st' env) ∧
  (keysUnique (contactAttributeKey st) → keysUnique (contactAttributeKey st')) ∧
  (attributeKeysExist st → attributeKeysExist st').
Proof.
  intros H.
  assert (contactAttributeKey st' = contactAttributeKey st ∧ contact st' ⊆ contact st)
    as [Hk Hsub].
  { destruct (contact st !! id) as [c|] eqn:Hc.
    - destruct (zid id) eqn:Hz.
      + destruct (deleteContact_present zid id st c Hz Hc) as (rv & Hdel & _).
        rewrite Hdel in H. injection H as <- _. split; [done|]. apply delete_subseteq.
      + unfold deleteContact, validateInputs in H. simpl in H. rewrite Hz in H.
        by injection H as <- _.
    - destruct (deleteContact_missing zid id st Hc) as (e & He & _).
      rewrite He in H. by injection H as <- _. }
  split_and!; [done|done| | |].
  - intros env Hu c1 c2 u H1 H2. apply (Hu c1 c2 u).
    + destruct H1 as (c & kid & row & Hc & ?). rewrite Hk in *.
      exists c, kid, row. split; [by eapply lookup_weaken|done].
    + destruct H2 as (c & kid & row & Hc & ?). rewrite Hk in *.
      exists c, kid, row. split; [by eapply lookup_weaken|done].
  - by rewrite Hk.
  - intros Hfk cid c kid Hc Ha. rewrite Hk. eapply Hfk; [|done].
    by eapply lookup_weaken.
Qed.

Lemma deleteContact_keeps_invariants_witness :
  let run := deleteContact (λ _, true) 1 storeWithUserId in
  contactAttributeKey run.1 = contactAttributeKey storeWithUserId ∧
  contact run.1 ⊆ contact storeWithUserId ∧
  (∀ env, userIdUnique storeWithUserId env → userIdUnique run.1 env) ∧
  (keysUnique (contactAttributeKey storeWithUserId) →
   keysUnique (contactAttributeKey run.1)) ∧
  (attributeKeysExist storeWithUserId → attributeKeysExist run.1).
Proof.
  intros run.
  apply (deleteContact_keeps_invariants (λ _, true) 1 storeWithUserId run.1 run.2).
  apply surjective_pairing.
Defined.

(** ** Reading back and undoing an import *)

Lemma selectAttributes_include keys attrs :
  (λ a, (sel_key a, sel_value a)) <$> selectAttributes keys attrs
  = includeAttributes keys attrs.
Proof.
  rewrite includeAttributes_omap. unfold selectAttributes.
  induction (map_to_list attrs) as [|[kid v] l IH]; [done|]. csimpl.
  destruct (keys !! kid); csimpl; by rewrite IH.
Qed.

(** A record's chain leaves alone every contact that is already stored
    and is not an entry of the lookup table. *)
Lemma processRecord_other env act e2c akm (r : CsvRecord) s s' o cid :
  processRecord env act e2c akm r s = (s', inr o) →
  is_Some (contact s !! cid) →
  (∀ e c, e2c !! e = Some c → existing_id c ≠ cid) →
  contact s' !! cid = contact s !! cid.
Proof.
  intros H Hcid Hnot. unfold processRecord in H.
  destruct (truthy (r !! "email")) as [e|]; [|by injection H as <- _].
  destruct (e2c !! e) as [c|] eqn:Hc.
  - specialize (Hnot _ _ Hc). destruct act.
    + by injection H as <- _.
    + apply bind_inr in H as (s1 & u & Hu & H). unfold ret in H. simplify_eq.
      unfold contactUpdate in Hu. destruct (contact s !! existing_id c); [|done].
      destruct (nestedUpsert _ _); [done|]. injection Hu as <- _. simpl.
      by rewrite lookup_insert_ne.
    + apply bind_inr in H as (sd & [] & Hd & H).
      apply bind_inr in H as (s1 & u & Hu & H). unfold ret in H. simplify_eq.
      unfold deleteManyContactAttributes in Hd. injection Hd as <-.
      unfold contactUpdate in Hu. simpl in Hu.
      destruct (alter _ _ _ !! existing_id c); [|done].
      destruct (nestedCreate _ _); [done|]. injection Hu as <- _. simpl.
      by rewrite lookup_insert_ne, lookup_alter_ne.
  - apply bind_inr in H as (s1 & u & Hu & H). unfold ret in H. simplify_eq.
    unfold contactCreate in Hu. destruct (nestedCreate _ _); [done|].
    injection Hu as <- _. simpl. rewrite lookup_insert_ne; [done|].
    intros <-. apply elem_of_dom in Hcid. by apply is_fresh in Hcid.
Qed.

Lemma records_other env act e2c akm (l : list CsvRecord) s s' results cid :
  mapM (processRecord env act e2c akm) l s = (s', inr results) →
  is_Some (contact s !! cid) →
  (∀ e c, e2c !! e = Some c → existing_id c ≠ cid) →
  contact s' !! cid = contact s !! cid.
Proof.
  revert s results. induction l as [|r l IH]; intros s results H Hcid Hnot; simpl in H.
  - unfold ret in H. by simplify_eq.
  - apply bind_inr in H as (s1 & o & Hstep & H).
    apply bind_inr in H as (s2 & ys & Hrest & H). unfold ret in H. simplify_eq.
    pose proof (processRecord_other _ _ _ _ _ _ _ _ _ Hstep Hcid Hnot) as H1.
    rewrite <-H1. eapply IH; [done| |done]. by rewrite H1.
Qed.

(** A successful call, cut at record [i]. *)
Lemma import_split schemas csvData env act attributeMap st st' out i (r : CsvRecord) :
  createContactsFromCSV schemas csvData env act attributeMap st = (st', inr out) →
  csvData !! i = Some r →
  let e2c := emailToContactMap env csvData st in
  ∃ akm s0 s1 s2 res1 o res2,
    Reconciled env csvData st s0 akm ∧
    mapM (processRecord env act e2c akm) (take i csvData) s0 = (s1, inr res1) ∧
    processRecord env act e2c akm r s1 = (s2, inr o) ∧
    mapM (processRecord env act e2c akm) (drop (S i) csvData) s2 = (st', inr res2) ∧
    out = omap id (res1 ++ o :: res2) ∧
    Running env csvData e2c akm s1 ∧
    contactAttributeKey s2 = contactAttributeKey st' ∧
    (∀ cid, is_Some (contact st !! cid) → is_Some (contact s1 !! cid)).
Proof.
  intros H Hi e2c.
  destruct (import_success _ _ _ _ _ _ _ _ H)
    as (s0 & akm & results & Hv & Hp & Hrec & Hr0 & _ & Hm & ->).
  fold e2c in Hp, Hr0, Hm. pose proof Hm as Hm'.
  rewrite <-(take_drop_middle csvData i r Hi) in Hm'.
  apply mapM_app_inv in Hm' as (s1 & res1 & ys & Hpre & Hrest & ->).
  simpl in Hrest.
  apply bind_inr in Hrest as (s2 & o & Hstep & Hrest).
  apply bind_inr in Hrest as (s3 & res2 & Hpost & Hrest).
  unfold ret in Hrest. simplify_eq.
  destruct (records_total env act csvData e2c akm (take i csvData) s0 Hr0)
    as (s1' & res' & Hpre' & Hr1 & Hk1 & Hd1 & _); [apply subseteq_take|].
  assert (s1' = s1 ∧ res' = res1) as [-> ->]
    by (rewrite Hpre in Hpre'; by simplify_eq).
  destruct (processRecord_Running env act csvData e2c akm r s1 Hr1)
    as (s2' & o' & Hstep' & Hr2 & Hk2 & _); [by eapply list_elem_of_lookup_2|].
  assert (s2' = s2) as -> by (rewrite Hstep in Hstep'; by simplify_eq).
  destruct (records_total env act csvData e2c akm (drop (S i) csvData) s2 Hr2)
    as (sF & resF & Hpost' & _ & HkF & _); [apply subseteq_drop|].
  assert (sF = st') as -> by (rewrite Hpost in Hpost'; by simplify_eq).
  exists akm, s0, s1, s2, res1, o, res2. split_and!; try done.
  intros cid Hc. apply Hd1. by rewrite (rec_contact _ _ _ _ _ Hrec).
Qed.

(** X10.  A record that takes the [create] branch of a successful call
    gives a contact that is still there, exactly as created, when the call
    returns: it is an element of the returned sequence, its id is new, and
    [getContact] on the final store shows it in the environment of the
    call with exactly the columns of the record as its attributes, no
    matter which records follow it in the batch. *)
Theorem created_contact_reads_back
    schemas csvData env act attributeMap st st' out i (r : CsvRecord) e zid :
  createContactsFromCSV schemas csvData env act attributeMap st = (st', inr out) →
  csvData !! i = Some r →
  r !! "email" = Some e → e ≠ "" →
  emailToContactMap env csvData st !! e = None →
  ∃ tc,
    tc ∈ out ∧
    contact st !! tc_id tc = None ∧
    tc_environmentId tc = env ∧
    tc_attributes tc ≡ₚ map_to_list r ∧
    (zid (tc_id tc) = true →
     ∃ sel, getContact zid (tc_id tc) st' = (st', inr (Some sel)) ∧
            sel_id sel = tc_id tc ∧ sel_environmentId sel = env ∧
            (λ a, (sel_key a, sel_value a)) <$> sel_attributes sel ≡ₚ map_to_list r).
Proof.
  intros H Hi Hemail Hne Hnone.
  assert (truthy (r !! "email") = Some e) as He by by apply truthy_Some.
  destruct (import_split _ _ _ _ _ _ _ _ _ _ H Hi)
    as (akm & s0 & s1 & s2 & res1 & o & res2 & Hrec & Hpre & Hstep & Hpost & -> &
        Hrun & Hkeys & Hdom).
  assert (Resolves env akm (contactAttributeKey s1) r) as Hres.
  { eapply Running_Resolves; [done|]. by eapply list_elem_of_lookup_2. }
  destruct (processRecord_create env _ akm act r s1 e He Hnone Hres)
    as (attrs & Hp & Hrows).
  simpl in Hp. rewrite Hp in Hstep. injection Hstep as <- <-.
  set (id := fresh (dom (contact s1))) in *.
  set (c' := mkContact env attrs) in *.
  assert (contact s1 !! id = None) as Hfresh by apply not_elem_of_dom, is_fresh.
  assert (Hperm : includeAttributes (contactAttributeKey s1) attrs ≡ₚ map_to_list r)
    by by eapply written_attributes_perm.
  eexists. split_and!.
  - apply list_elem_of_omap. eexists (Some _). split; [|done].
    apply elem_of_app. right. left.
  - simpl. destruct (contact st !! id) eqn:E; [|done].
    destruct (Hdom id) as [? ?]; [eauto|congruence].
  - done.
  - done.
  - intros Hz. simpl in *.
    assert (contact st' !! id = Some c') as Hfinal.
    { erewrite records_other; [| exact Hpost | |].
      - simpl. apply lookup_insert_eq.
      - simpl. rewrite lookup_insert_eq. eauto.
      - intros e0 c0 Hc0 Heq. destruct (run_existing _ _ _ _ _ Hrun _ _ Hc0) as [? Hx].
        rewrite Heq in Hx. congruence. }
    exists (selectContact st' id c'). rewrite getContact_valid, Hfinal by done.
    split_and!; [done..|]. simpl. rewrite selectAttributes_include. by rewrite <-Hkeys.
Qed.

Lemma created_contact_reads_back_witness :
  let run := createContactsFromCSV shapeSchemas scenarioBatch "env" update ∅ emptyStore in
  ∃ out, run.2 = inr out ∧
  ∃ tc,
    tc ∈ out ∧
    contact emptyStore !! tc_id tc = None ∧
    tc_environmentId tc = "env" ∧
    tc_attributes tc ≡ₚ map_to_list (mkRecord [("email", "a@x.com"); ("plan", "free")]) ∧
    ((λ _ : positive, true) (tc_id tc) = true →
     ∃ sel, getContact (λ _, true) (tc_id tc) run.1 = (run.1, inr (Some sel)) ∧
            sel_id sel = tc_id tc ∧ sel_environmentId sel = "env" ∧
            (λ a, (sel_key a, sel_value a)) <$> sel_attributes sel
              ≡ₚ map_to_list (mkRecord [("email", "a@x.com"); ("plan", "free")])).
Proof.
  intros run. eexists. split; [vm_compute; reflexivity|].
  apply (created_contact_reads_back shapeSchemas scenarioBatch "env" update ∅ emptyStore
           run.1 _ 0 (mkRecord [("email", "a@x.com"); ("plan", "free")]) "a@x.com"
           (λ _, true)).
  - vm_compute. reflexivity.
  - reflexivity.
  - vm_compute. reflexivity.
  - discriminate.
  - vm_compute. reflexivity.
Defined.

(** Under [skip] a record's chain either does nothing or stores one new
    contact and returns it. *)
Lemma processRecord_skip_cases env e2c akm (r : CsvRecord) s s' o :
  processRecord env skip e2c akm r s = (s', inr o) →
  (s' = s ∧ o = None) ∨
  (∃ tc c', o = Some tc ∧ tc_id tc = fresh (dom (contact s)) ∧
            contact s' = <[fresh (dom (contact s)) := c']> (contact s)).
Proof.
  unfold processRecord. destruct (truthy _) as [e|]; [|intros [= <- <-]; by left].
  destruct (e2c !! e); [intros [= <- <-]; by left|].
  intros H. apply bind_inr in H as (s1 & u & Hu & H). unfold ret in H. simplify_eq.
  unfold contactCreate in Hu. destruct (nestedCreate _ _); [done|].
  injection Hu as <- <-. right. eexists _, _. done.
Qed.

Lemma records_skip_created env e2c akm (l : list CsvRecord) s s' results :
  mapM (processRecord env skip e2c akm) l s = (s', inr results) →
  let ids := tc_id <$> omap id results in
  NoDup ids ∧
  (∀ cid, cid ∈ ids → contact s !! cid = None ∧ is_Some (contact s' !! cid)) ∧
  (∀ cid, cid ∉ ids → contact s' !! cid = contact s !! cid).
Proof.
  revert s results. induction l as [|r l IH]; intros s results H; simpl in H.
  - unfold ret in H. simplify_eq. simpl. split_and!; [constructor| |done].
    by intros cid ?%elem_of_nil.
  - apply bind_inr in H as (s1 & o & Hstep & H).
    apply bind_inr in H as (s2 & ys & Hrest & H). unfold ret in H. simplify_eq.
    destruct (IH _ _ Hrest) as (Hnd & Hnew & Hold).
    apply processRecord_skip_cases in Hstep as [[-> ->]|(tc & c' & -> & Hid & Hc)].
    + done.
    + simpl. rewrite Hid.
      assert (contact s !! fresh (dom (contact s)) = None) as Hfresh
        by apply not_elem_of_dom, is_fresh.
      assert (fresh (dom (contact s)) ∉ tc_id <$> omap id ys) as Hnotin.
      { intros [Hn _]%Hnew. rewrite Hc, lookup_insert_eq in Hn. done. }
      split_and!.
      * by apply NoDup_cons.
      * intros cid [->|Hin]%elem_of_cons.
        -- split; [done|]. rewrite (Hold _ Hnotin), Hc, lookup_insert_eq. eauto.
        -- destruct (Hnew _ Hin) as [Hn Hs]. split; [|done].
           rewrite Hc in Hn. destruct (decide (fresh (dom (contact s)) = cid)) as [<-|?].
           ++ by rewrite lookup_insert_eq in Hn.
           ++ by rewrite lookup_insert_ne in Hn.
      * intros cid Hnot. apply not_elem_of_cons in Hnot as [Hne Hnot].
        rewrite (Hold _ Hnot), Hc. by rewrite lookup_insert_ne.
Qed.

Lemma deleteContacts_spec zid (ids : list positive) t :
  NoDup ids →
  (∀ cid, cid ∈ ids → is_Some (contact t !! cid) ∧ zid cid = true) →
  ∃ t' deleted,
    mapM (deleteContact zid) ids t = (t', inr deleted) ∧
    contactAttributeKey t' = contactAttributeKey t ∧
    ∀ cid, contact t' !! cid = if decide (cid ∈ ids) then None else contact t !! cid.
Proof.
  revert t. induction ids as [|id ids IH]; intros t Hnd Hall.
  - exists t, []. split_and!; [done..|]. intros cid.
    rewrite decide_False; [done|]. apply not_elem_of_nil.
  - apply NoDup_cons in Hnd as [Hid Hnd].
    destruct (Hall id) as [[c Hc] Hz]; [left|].
    destruct (deleteContact_present zid id t c Hz Hc) as (rv & Hdel & _).
    destruct (IH (mkStore (delete id (contact t)) (contactAttributeKey t)) Hnd)
      as (t' & deleted & Hm & Hk & Hlook).
    { intros cid Hin. destruct (Hall cid) as [? ?]; [by right|]. split; [|done].
      simpl. rewrite lookup_delete_ne; [done|]. by intros ->. }
    exists t', ((selectContact t id c, rv) :: deleted). simpl.
    rewrite (bind_ok _ _ _ _ _ Hdel), (bind_ok _ _ _ _ _ Hm).
    split_and!; [done|done|]. intros cid. rewrite Hlook. simpl.
    destruct (decide (cid = id)) as [->|Hne].
    + rewrite decide_False by done. rewrite decide_True by left. apply lookup_delete_eq.
    + rewrite lookup_delete_ne by done.
      destruct (decide (cid ∈ ids)).
      * rewrite decide_True; [done|by right].
      * rewrite decide_False; [done|]. by intros [?|?]%elem_of_cons.
Qed.

(** X11.  Under [skip] a successful call only adds contacts, and
    [deleteContact] on each contact it returned, in the order returned,
    succeeds every time and brings the contact table back to what it was
    before the call.  The attribute keys that the call created stay. *)
Theorem skip_import_undone_by_delete
    schemas csvData env attributeMap st st' out zid :
  createContactsFromCSV schemas csvData env skip attributeMap st = (st', inr out) →
  (∀ tc, tc ∈ out → zid (tc_id tc) = true) →
  ∃ st'' deleted,
    mapM (deleteContact zid) (tc_id <$> out) st' = (st'', inr deleted) ∧
    length deleted = length out ∧
    contact st'' = contact st ∧
    contactAttributeKey st'' = contactAttributeKey st'.
Proof.
  intros H Hz.
  destruct (import_success _ _ _ _ _ _ _ _ H)
    as (s0 & akm & results & _ & _ & Hrec & _ & _ & Hm & ->).
  destruct (records_skip_created _ _ _ _ _ _ _ Hm) as (Hnd & Hnew & Hold).
  destruct (deleteContacts_spec zid (tc_id <$> omap id results) st' Hnd)
    as (st'' & deleted & Hdel & Hk & Hlook).
  { intros cid Hin. split; [by apply Hnew|].
    apply list_elem_of_fmap in Hin as (tc & -> & Hin). by apply Hz. }
  exists st'', deleted. split_and!; [done| | |done].
  - rewrite (mapM_length _ _ _ _ _ Hdel). by rewrite length_fmap.
  - apply map_eq. intros cid. rewrite Hlook, <-(rec_contact _ _ _ _ _ Hrec).
    destruct (decide (cid ∈ tc_id <$> omap id results)) as [Hin|Hnot].
    + by destruct (Hnew _ Hin) as [-> _].
    + by apply Hold.
Qed.

Lemma skip_import_undone_by_delete_witness :
  let run := createContactsFromCSV shapeSchemas distinctUserIdBatch "env" skip ∅
               storeWithContact in
  ∃ out, run.2 = inr out ∧
  ∃ st'' deleted,
    mapM (deleteContact (λ _, true)) (tc_id <$> out) run.1 = (st'', inr deleted) ∧
    length deleted = length out ∧
    contact st'' = contact storeWithContact ∧
    contactAttributeKey st'' = contactAttributeKey run.1.
Proof.
  intros run. eexists. split; [vm_compute; reflexivity|].
  apply (skip_import_undone_by_delete shapeSchemas distinctUserIdBatch "env" ∅
           storeWithContact run.1 _ (λ _, true)).
  - vm_compute. reflexivity.
  - done.
Defined.

(** ** The combobox *)

Import InputCombobox.

Lemma validOptions_withValue `{JsNumbers} v (props : Props) :
  validOptions (withValue v props) = validOptions props.
Proof. done. Qed.

Lemma ensureInputType_inputType `{JsNumbers} t (rendered st : State) :
  inputType rendered = inputType st →
  inputType (ensureInputType t rendered st) = Some t.
Proof. unfold ensureInputType. intros Heq. case_decide; [congruence|done]. Qed.


Lemma ensureInputType_fixed `{JsNumbers} t (rendered st : State) :
  inputType st = Some t → ensureInputType t rendered st = st.
Proof.
  unfold ensureInputType. intros Heq. case_decide; [done|].
  destruct st; simpl in *; by subst.
Qed.

(** X12.  The effect settles in one run.  It lists [inputType] among its
    dependencies, so React runs it again after it has changed that state;
    the second run changes nothing. *)
Theorem syncEffect_settles `{JsNumbers} (props : Props) (st : State) :
  syncEffect props (syncEffect props st) = syncEffect props st.
Proof.
  unfold syncEffect.
  destruct (propValue props) as [|v|[|v vs]]; [done| |done|].
  - destruct (validOptions props ≫= _) as [o|]; [|destruct (withInput props); [|done]].
    all: unfold ensureInputType; destruct st as [op lv [[]|]]; simpl;
      repeat (case_decide; simpl); try done; congruence.
  - unfold ensureInputType; destruct st as [op lv [[]|]]; simpl;
      repeat (case_decide; simpl); try done; congruence.
Qed.


(** X14.  A single-select combobox whose parent stores the value it is
    handed stays as [handleSelect] left it: the effect, run with that
    value, changes nothing, provided the selected option is the first of
    the valid options that carries its value. *)
Theorem select_then_sync_stable `{JsNumbers}
    (props : Props) (st : State) (option : TComboboxOption) :
  allowMultiSelect props = false →
  validOptions props ≫= List.find (λ o, strictEq (value o) (value option)) = Some option →
  let run := handleSelect props st option in
  run.2 = [onChangeValue (EScalar (value option)) (Some option) None] ∧
  syncEffect (withValue (PScalar (value option)) props) run.1 = run.1.
Proof.
  intros Hsingle Hfirst. unfold handleSelect. rewrite Hsingle. cbn zeta.
  split; [done|]. unfold syncEffect. simpl propValue.
  rewrite validOptions_withValue, Hfirst.
  rewrite ensureInputType_fixed.
  - by destruct st.
  - simpl. by apply ensureInputType_inputType.
Qed.

Lemma select_then_sync_stable_witness :
  let run := handleSelect (fruitProps false) initialState (fruit "pear") in
  run.2 = [onChangeValue (EScalar (value (fruit "pear"))) (Some (fruit "pear")) None] ∧
  syncEffect (withValue (PScalar (value (fruit "pear"))) (fruitProps false)) run.1 = run.1.
Proof.
  apply (select_then_sync_stable (fruitProps false) initialState (fruit "pear")).
  - reflexivity.
  - vm_compute. reflexivity.
Defined.



Lemma find_filter_out {A} (f : A → bool) (l : list A) :
  List.find f (List.filter (λ x, negb (f x)) l) = None.
Proof.
  induction l as [|a l IH]; simpl; [done|].
  destruct (f a) eqn:Hfa; simpl; [done|]. by rewrite Hfa.
Qed.

(** X16.  In a multi-select, selecting an option whose value is equal to
    itself under [===] toggles it: its check mark flips, and the options
    held whose value differs from it are the same before and after. *)
Theorem multi_select_toggles `{JsNumbers}
    (props : Props) (st : State) (option : TComboboxOption) :
  allowMultiSelect props = true →
  strictEq (value option) (value option) = true →
  let st' := (handleSelect props st option).1 in
  checked props st' option = negb (checked props st option) ∧
  ∀ item, strictEq (value item) (value option) = false →
          item ∈ selected st' ↔ item ∈ selected st.
Proof.
  intros Hmulti Hrefl. unfold handleSelect, checked, selected. rewrite Hmulti. cbn zeta.
  destruct (localValue st) as [|v|o|items] eqn:Hlocal.
  1-3: simpl; rewrite Hrefl; split; [done|];
    intros item Hne; split; [|by intros ?%elem_of_nil];
    intros ->%list_elem_of_singleton; congruence.
  destruct (List.find _ items) as [found|] eqn:Hfind.
  - set (newValue := List.filter _ items).
    assert (List.find (λ item, strictEq (value item) (value option)) newValue = None) as Hgone.
    { apply find_filter_out. }
    assert (∀ item, strictEq (value item) (value option) = false →
                    item ∈ newValue ↔ item ∈ items) as Hothers.
    { intros item Hne. rewrite !list_elem_of_In. unfold newValue.
      rewrite filter_In, Hne. naive_solver. }
    destruct newValue as [|i rest] eqn:Hnew; simpl localValue; cbv beta iota;
      rewrite Hgone.
    + split; [|done]. by rewrite !bool_decide_eq_false_2 by (by intros [? ?]).
    + split; [|done]. rewrite bool_decide_eq_false_2 by (by intros [? ?]).
      by rewrite bool_decide_eq_true_2 by eauto.
  - destruct (items ++ [option]) as [|i rest] eqn:Happ; [by destruct items|].
    simpl localValue. rewrite <-Happ. split.
    + rewrite (bool_decide_eq_false_2 (is_Some None)) by (by intros [? ?]).
      rewrite bool_decide_eq_true_2; [done|].
      destruct (List.find _ (items ++ [option])) eqn:Hf; [eauto|].
      eapply find_none in Hf; [|apply in_app_iff; right; by left].
      simpl in Hf. congruence.
    + intros item Hne. rewrite elem_of_app, list_elem_of_singleton.
      split; [|by left]. intros [?| ->]; [done|congruence].
Qed.

Lemma multi_select_toggles_witness :
  let st := @mkState exampleNumbers false (LOptions [fruit "apple"]) (Some dropdown) in
  let st' := (handleSelect (fruitProps true) st (fruit "pear")).1 in
  checked (fruitProps true) st' (fruit "pear")
    = negb (checked (fruitProps true) st (fruit "pear")) ∧
  ∀ item, strictEq (value item) (value (fruit "pear")) = false →
          item ∈ selected st' ↔ item ∈ selected st.
Proof.
  apply (multi_select_toggles (fruitProps true)
           (mkState false (LOptions [fruit "apple"]) (Some dropdown)) (fruit "pear")).
  - reflexivity.
  - vm_compute. reflexivity.
Defined.
